(** * Click-to-move path planning over a tilemap

    A shallow embedding of [examples/post-1/05-physics/map-game.js]: the
    collision and tile-ID queries, the construction of the pathfinder's grid
    and walkable-tile list in [create], the click handler, the runtime
    obstacle placement, the translation of a path into tweens, and the
    per-frame [update] of the player and the marker.

    JavaScript numbers that hold tile coordinates, tile indices, pixel
    positions and costs are integers here ([Z]), velocities are rationals
    ([Q]); objects used as dictionaries are finite maps; a thrown
    [TypeError] is an explicit outcome. *)

From stdpp Require Import gmap strings list fin_maps fin_sets sorting.
From Stdlib Require Import ZArith Lia QArith.

Open Scope Z_scope.

(** ** The engine's tilemap, as far as the file uses it *)

(** Custom properties of a tile as entered in the map editor; a property that
    was not entered reads as [undefined], here [None]. *)
Record TileProperties := {
  collides : option bool;
  cost : option Z
}.

Definition noProperties : TileProperties :=
  {| collides := None; cost := None |}.

(** A tile of a layer: its index in the tileset, its custom properties and
    whether the physics engine treats it as solid. *)
Record Tile := {
  index : Z;
  properties : TileProperties;
  collision : bool
}.

(** The tiles of one layer, keyed by tile coordinate [(x, y)]; a coordinate
    without an entry is an empty location. [collideIndexes] lists the tile
    indices that collide by index. *)
Record LayerData := {
  data : gmap (Z * Z) Tile;
  collideIndexes : list Z
}.

Record Tileset := {
  firstgid : Z;
  total : Z;
  tileProperties : gmap Z TileProperties
}.

Record Tilemap := {
  width : Z;
  height : Z;
  tileWidth : Z;
  tileHeight : Z;
  layers : gmap string LayerData;
  tilesets : list Tileset
}.

Definition Cell : Type := Z * Z.

Inductive Exn := TypeError.

(** The result of code that reads the state and may throw. *)
Inductive result (A : Type) :=
| Ok (a : A)
| Throw (e : Exn).
Arguments Ok {A} a.
Arguments Throw {A} e.

Definition rbind {A B} (r : result A) (k : A -> result B) : result B :=
  match r with
  | Ok a => k a
  | Throw e => Throw e
  end.

Notation "'let!' x ':=' c 'in' k" := (rbind c (fun x => k))
  (at level 10, x name, c at level 100, k at level 200).

Definition IsInLayerBounds (m : Tilemap) (x y : Z) : bool :=
  (0 <=? x) && (x <? width m) && (0 <=? y) && (y <? height m).

(** Modelled from the spec: the engine's tile-layer query [map.getTileAt(x, y,
    false, layer)], which lives in the game engine and not in this file. For a
    cell and a layer name it returns a tile reference or "no tile" ([null]):
    no tile when the layer does not exist, when the cell is outside the map's
    bounds, or when the location is empty. *)
Definition getTileAt (m : Tilemap) (x y : Z) (layer : string) : option Tile :=
  match layers m !! layer with
  | None => None
  | Some l => if IsInLayerBounds m x y then data l !! (x, y) else None
  end.

(** Modelled from the spec: the engine's world-to-tile conversion, which
    rounds down to the nearest tile. *)
Definition worldToTileX (m : Tilemap) (wx : Z) : Z := wx / tileWidth m.
Definition worldToTileY (m : Tilemap) (wy : Z) : Z := wy / tileHeight m.

(** ** game.checkCollision and game.getTileID *)

Definition checkCollision (m : Tilemap) (x y : Z) : bool :=
  match getTileAt m x y "World" with
  | None => false
  | Some tile => bool_decide (collides (properties tile) = Some true)
  end.

Definition getTileID (m : Tilemap) (x y : Z) : result Z :=
  let tile := getTileAt m x y "World" in
  let tile := match tile with
              | None => getTileAt m x y "Below Player"
              | Some t => Some t
              end in
  match tile with
  | None => Throw TypeError
  | Some t => Ok (index t)
  end.

(** The tile whose index [getTileID] reads at a cell: the "World" tile, or
    else the "Below Player" tile. *)
Definition tileOf (m : Tilemap) (x y : Z) : option Tile :=
  match getTileAt m x y "World" with
  | Some t => Some t
  | None => getTileAt m x y "Below Player"
  end.

(** ** The grid built in create *)

(** [for (var i = lo; cond; i++)] running [n] times from [lo], in the
    result monad: the body may throw, which ends the loop. *)
Fixpoint forM {S : Type} (n : nat) (i : Z) (body : Z -> S -> result S) (s : S)
  : result S :=
  match n with
  | O => Ok s
  | Datatypes.S n' => let! s' := body i s in forM n' (i + 1) body s'
  end.

(** The body of a loop that computes one value per turn and pushes it onto
    the array under construction. *)
Definition push {A : Type} (f : Z -> result A) (x : Z) (acc : list A)
  : result (list A) :=
  let! v := f x in Ok (acc ++ [v]).

Definition buildRow (m : Tilemap) (y : Z) : result (list Z) :=
  forM (Z.to_nat (width m)) 0
       (fun x col => let! id := getTileID m x y in Ok (col ++ [id])) [].

Definition buildGrid (m : Tilemap) : result (list (list Z)) :=
  forM (Z.to_nat (height m)) 0
       (fun y grid => let! col := buildRow m y in Ok (grid ++ [col])) [].

(** ** The pathfinder's configuration *)

(** Modelled from the spec: the pathfinder object [game.finder] of the
    pathfinding library, whose code is not in this file, as far as the file
    configures it: the grid of tile IDs ([setGrid]), the list of tile IDs that
    can be walked on ([setAcceptableTiles]), the cost registered per tile ID
    ([setTileCost]) and the additional points to avoid
    ([avoidAdditionalPoint]). Each setter stores what it is given. *)
Record EasyStar := {
  grid : list (list Z);
  acceptableTiles : list Z;
  costMap : gmap Z Z;
  pointsToAvoid : gset Cell
}.

Definition newEasyStar : EasyStar :=
  {| grid := []; acceptableTiles := []; costMap := ∅; pointsToAvoid := ∅ |}.

Definition setGrid (g : list (list Z)) (e : EasyStar) : EasyStar :=
  {| grid := g; acceptableTiles := acceptableTiles e;
     costMap := costMap e; pointsToAvoid := pointsToAvoid e |}.

Definition setAcceptableTiles (tiles : list Z) (e : EasyStar) : EasyStar :=
  {| grid := grid e; acceptableTiles := tiles;
     costMap := costMap e; pointsToAvoid := pointsToAvoid e |}.

Definition setTileCost (tileType c : Z) (e : EasyStar) : EasyStar :=
  {| grid := grid e; acceptableTiles := acceptableTiles e;
     costMap := <[tileType := c]> (costMap e); pointsToAvoid := pointsToAvoid e |}.

Definition avoidAdditionalPoint (x y : Z) (e : EasyStar) : EasyStar :=
  {| grid := grid e; acceptableTiles := acceptableTiles e;
     costMap := costMap e; pointsToAvoid := {[ (x, y) ]} ∪ pointsToAvoid e |}.

(** ** The walkable-tile list built in create *)

(** JavaScript truthiness of a property that holds a boolean or is absent,
    and of one that holds a number or is absent. *)
Definition truthyBool (v : option bool) : bool :=
  match v with
  | Some b => b
  | None => false
  end.

Definition truthyNum (v : option Z) : bool :=
  match v with
  | Some n => negb (n =? 0)
  | None => false
  end.

(** [for (var i = lo; cond; i++)] running [n] times from [lo], for a body that
    cannot throw. *)
Fixpoint forEach {S : Type} (n : nat) (i : Z) (body : Z -> S -> S) (s : S) : S :=
  match n with
  | O => s
  | Datatypes.S n' => forEach n' (i + 1) body (body i s)
  end.

(** One turn of the loop over the tile IDs: the state is the list
    [acceptableTiles] under construction and the pathfinder. *)
Definition classifyTile (props : gmap Z TileProperties) (i : Z)
    (s : list Z * EasyStar) : list Z * EasyStar :=
  let '(acceptable, finder) := s in
  match props !! i with
  | None => (acceptable ++ [i + 1], finder)
  | Some p =>
    let acceptable :=
      if negb (truthyBool (collides p)) then acceptable ++ [i + 1]
      else acceptable in
    let finder :=
      if truthyNum (cost p)
      then match cost p with
           | Some c => setTileCost (i + 1) c finder
           | None => finder
           end
      else finder in
    (acceptable, finder)
  end.

(** What the loop decides for tile ID [i]: whether it is walkable, and the
    cost it registers, if any. *)
Definition accepts (props : gmap Z TileProperties) (i : Z) : bool :=
  match props !! i with
  | None => true
  | Some p => negb (truthyBool (collides p))
  end.

Definition registers (props : gmap Z TileProperties) (i : Z) : option Z :=
  match props !! i with
  | None => None
  | Some p => if truthyNum (cost p) then cost p else None
  end.

(** The loop of [create] over [tileset2.firstgid - 1 <= i < tileset.total],
    followed by [setAcceptableTiles]. *)
Definition classifyTiles (tileset tileset2 : Tileset) (finder : EasyStar)
  : EasyStar :=
  let lo := firstgid tileset2 - 1 in
  let '(acceptable, finder) :=
    forEach (Z.to_nat (total tileset - lo)) lo
            (classifyTile (tileProperties tileset2)) ([], finder) in
  setAcceptableTiles acceptable finder.

(** The pathfinding part of [create]: [tileset] is the tileset returned by
    [map.addTilesetImage]; [tileset2] is [game.map.tilesets[0]]. *)
Definition createFinder (m : Tilemap) (tileset : Tileset) : result EasyStar :=
  let finder := newEasyStar in
  let! g := buildGrid m in
  let finder := setGrid g finder in
  match tilesets m !! 0%nat with
  | None => Throw TypeError
  | Some tileset2 => Ok (classifyTiles tileset tileset2 finder)
  end.

(** ** The game object and its methods *)

(** One entry of the list handed to the tween timeline: the target value and
    the duration for each of the player's coordinates. *)
Record TweenProp := {
  value : Z;
  duration : Z
}.

Record Tween := {
  tween_x : TweenProp;
  tween_y : TweenProp
}.

(** What the file writes to the console. *)
Inductive ConsoleEntry :=
| LogHandleClick
| LogGoing (from to : Cell)
| LogPath (path : list Cell)
| LogMoveCharacter
| LogTileProperties (p : TileProperties)
| WarnPathNotFound.

(** The fields hung off the [game] object, together with the player's
    position, the camera's scroll, the timelines started on the scene and the
    console.
    [game.worldLayer] is the map's "World" layer: both names reach the same
    tiles, which live in [layers (map g)]. *)
Record Game := {
  map : Tilemap;
  finder : EasyStar;
  marker : Z * Z;
  player : Z * Z;
  camera : Z * Z;
  timelines : list (list Tween);
  console : list ConsoleEntry
}.

(** The outcome of a method that changes the game: the state it leaves, and
    whether it returned or threw. What was changed before a throw stays
    changed. *)
Inductive outcome (A : Type) :=
| Returned (a : A) (g : Game)
| Raised (e : Exn) (g : Game).
Arguments Returned {A} a g.
Arguments Raised {A} e g.

Definition M (A : Type) : Type := Game -> outcome A.

Definition bind {A B} (c : M A) (k : A -> M B) : M B :=
  fun g =>
    match c g with
    | Returned a g' => k a g'
    | Raised e g' => Raised e g'
    end.

Definition throw {A} (e : Exn) : M A := fun g => Raised e g.

Definition get : M Game := fun g => Returned g g.

Definition modify (f : Game -> Game) : M unit := fun g => Returned tt (f g).

Notation "'do!' x ':=' c 'in' k" := (bind c (fun x => k))
  (at level 10, x name, c at level 100, k at level 200).
Notation "c ';;;' k" := (bind c (fun _ => k))
  (at level 100, k at level 200, right associativity).

Definition stateOf {A} (o : outcome A) : Game :=
  match o with
  | Returned _ g => g
  | Raised _ g => g
  end.

Definition set_map (m : Tilemap) (g : Game) : Game :=
  {| map := m; finder := finder g; marker := marker g; player := player g;
     camera := camera g; timelines := timelines g; console := console g |}.

Definition set_finder (e : EasyStar) (g : Game) : Game :=
  {| map := map g; finder := e; marker := marker g; player := player g;
     camera := camera g; timelines := timelines g; console := console g |}.

Definition add_timeline (tweens : list Tween) (g : Game) : Game :=
  {| map := map g; finder := finder g; marker := marker g; player := player g;
     camera := camera g; timelines := timelines g ++ [tweens];
     console := console g |}.

Definition add_console (c : ConsoleEntry) (g : Game) : Game :=
  {| map := map g; finder := finder g; marker := marker g; player := player g;
     camera := camera g; timelines := timelines g;
     console := console g ++ [c] |}.

Definition consoleLog (c : ConsoleEntry) : M unit := modify (add_console c).

Definition set_layer (name : string) (l : LayerData) (m : Tilemap) : Tilemap :=
  {| width := width m; height := height m; tileWidth := tileWidth m;
     tileHeight := tileHeight m; layers := <[name := l]> (layers m);
     tilesets := tilesets m |}.

(** Modelled from the spec: the engine's [layer.putTileAt(index, x, y)], which
    lives in the game engine. Outside the map's bounds it changes nothing and
    returns no tile ([null]); inside, the location holds a tile of the given
    index afterwards, which keeps the custom properties of a tile that was
    there, collides if the index is in the layer's collision list, and is
    returned by reference: its cell stands for the reference. *)
Definition putTileAt (m : Tilemap) (idx tx ty : Z) (l : LayerData)
  : LayerData * option Cell :=
  if IsInLayerBounds m tx ty then
    let props := match data l !! (tx, ty) with
                 | Some t => properties t
                 | None => noProperties
                 end in
    let t := {| index := idx; properties := props;
                collision := bool_decide (idx ∈ collideIndexes l) |} in
    ({| data := <[(tx, ty) := t]> (data l);
        collideIndexes := collideIndexes l |}, Some (tx, ty))
  else (l, None).

Definition putTileAtWorldXY (m : Tilemap) (idx wx wy : Z) (l : LayerData)
  : LayerData * option Cell :=
  putTileAt m idx (worldToTileX m wx) (worldToTileY m wy) l.

(** Modelled from the spec: the engine's [tile.setCollision(true)] on the
    tile referenced by a cell of a layer. *)
Definition setCollision (c : Cell) (l : LayerData) : LayerData :=
  {| data := alter (fun t => {| index := index t; properties := properties t;
                                collision := true |}) c (data l);
     collideIndexes := collideIndexes l |}.

(** The tile cell under the marker. *)
Definition markerCell (g : Game) : Cell :=
  (worldToTileX (map g) (marker g).1, worldToTileY (map g) (marker g).2).

(** [game.changeTile]. The tile that [putTileAtWorldXY] returns is a
    reference into the "World" layer, so [tile.setCollision(true)] changes the
    layer; when it returns [null], reading [tile.properties] throws. *)
Definition changeTile : M unit :=
  do! g := get in
  match layers (map g) !! "World" with
  | None => throw TypeError
  | Some worldLayer =>
    (* var tile = game.worldLayer.putTileAtWorldXY(2, marker.x, marker.y) *)
    let '(worldLayer, tile) :=
      putTileAtWorldXY (map g) 2 (marker g).1 (marker g).2 worldLayer in
    modify (set_map (set_layer "World" worldLayer (map g))) ;;;
    match tile with
    | None => throw TypeError
    | Some c =>
      match data worldLayer !! c with
      | None => throw TypeError
      | Some t =>
        (* console.log("tile.properties: " + tile.properties) *)
        consoleLog (LogTileProperties (properties t)) ;;;
        (* tile.setCollision(true) *)
        modify (set_map (set_layer "World" (setCollision c worldLayer) (map g))) ;;;
        (* game.finder.avoidAdditionalPoint(worldToTileX(..), worldToTileY(..)) *)
        modify (fun g' =>
          set_finder (avoidAdditionalPoint (worldToTileX (map g) (marker g).1)
                                           (worldToTileY (map g) (marker g).2)
                                           (finder g')) g')
      end
    end
  end.

(** The tile that [changeTile] leaves at a cell of a layer. *)
Definition placed (l : LayerData) (c : Cell) : Tile :=
  {| index := 2;
     properties := match data l !! c with
                   | Some t => properties t
                   | None => noProperties
                   end;
     collision := true |}.

Definition placedLayer (l : LayerData) (c : Cell) : LayerData :=
  {| data := <[c := placed l c]> (data l);
     collideIndexes := collideIndexes l |}.

(** Two states of the game that differ at most in what is on the console. *)
Definition sameButConsole (g g' : Game) : Prop :=
  map g = map g' ∧ finder g = finder g' ∧ marker g = marker g' ∧
  player g = player g' ∧ camera g = camera g' ∧ timelines g = timelines g'.

(** [path[i]], whose coordinates are read next: past the end of the path it
    is [undefined] and the read throws. *)
Definition pathAt (path : list Cell) (i : Z) : result Cell :=
  match path !! Z.to_nat i with
  | None => Throw TypeError
  | Some c => Ok c
  end.

Definition tweenTo (m : Tilemap) (c : Cell) : Tween :=
  {| tween_x := {| value := c.1 * tileWidth m; duration := 200 |};
     tween_y := {| value := c.2 * tileHeight m; duration := 200 |} |}.

(** The body of the loop of [moveCharacter]: one tween per cell of the path
    after the first. *)
Definition pushTween (m : Tilemap) (path : list Cell) (i : Z)
    (tweens : list Tween) : result (list Tween) :=
  let! c := pathAt path (i + 1) in
  Ok (tweens ++ [tweenTo m c]).

Definition pathTweens (m : Tilemap) (path : list Cell) : result (list Tween) :=
  forM (Z.to_nat (Z.of_nat (length path) - 1)) 0 (pushTween m path) [].

Definition moveCharacter (path : list Cell) : M unit :=
  consoleLog LogMoveCharacter ;;;
  do! g := get in
  match pathTweens (map g) path with
  | Throw e => throw e
  | Ok tweens => modify (add_timeline tweens)
  end.

Section HandleClick.

(** The pathfinder's search: what [finder.findPath] followed by
    [finder.calculate] hands to the callback for a start and a goal cell,
    [None] standing for [null]. *)
Variable search : EasyStar -> Cell -> Cell -> option (list Cell).

(** The callback given to [finder.findPath]. *)
Definition onPath (path : option (list Cell)) : M unit :=
  match path with
  | None => consoleLog WarnPathNotFound
  | Some p => consoleLog (LogPath p) ;;; moveCharacter p
  end.

(** The start and the goal cell of a click. Positions are taken in whole
    pixels; the goal is the tile of the sum of the camera's scroll and the
    pointer's position, the start the tile of the player's position. *)
Definition clickCells (pointer : Z * Z) (g : Game) : Cell * Cell :=
  let x := (camera g).1 + pointer.1 in
  let y := (camera g).2 + pointer.2 in
  let toX := x / 32 in
  let toY := y / 32 in
  let fromX := (player g).1 / 32 in
  let fromY := (player g).2 / 32 in
  ((fromX, fromY), (toX, toY)).

(** The state in which the callback runs: the two messages of
    [handleClick] are on the console. *)
Definition announced (pointer : Z * Z) (g : Game) : Game :=
  add_console (LogGoing (clickCells pointer g).1 (clickCells pointer g).2)
              (add_console LogHandleClick g).

(** The path request of [handleClick]: everything up to and including
    [finder.calculate()]. *)
Definition requestPath (pointer : Z * Z) : M unit :=
  consoleLog LogHandleClick ;;;
  do! g := get in
  let '(from, to) := clickCells pointer g in
  consoleLog (LogGoing from to) ;;;
  do! g := get in
  onPath (search (finder g) from to).

Definition handleClick (pointer : Z * Z) : M unit :=
  requestPath pointer ;;;
  changeTile.

End HandleClick.

(** ** The path search *)

(** The tile ID the pathfinder's grid holds at a cell, if the cell is inside
    the grid: [grid[y][x]]. *)
Definition tileAt (e : EasyStar) (c : Cell) : option Z :=
  if (0 <=? c.1) && (0 <=? c.2) then
    match grid e !! Z.to_nat c.2 with
    | None => None
    | Some row => row !! Z.to_nat c.1
    end
  else None.

(** Modelled from the spec: the bounds-checked walkability query of the
    grid, which the pathfinding library answers and this file does not. A cell
    is walkable when it is inside the grid, its tile ID is in the list of
    acceptable tiles and it is not one of the points to avoid. *)
Definition isWalkable (e : EasyStar) (c : Cell) : bool :=
  match tileAt e c with
  | None => false
  | Some t => bool_decide (t ∈ acceptableTiles e)
              && bool_decide (c ∉ pointsToAvoid e)
  end.

(** Modelled from the spec: the cost query of the grid, with the default cost
    1 for a tile ID without a registered cost. *)
Definition costOf (e : EasyStar) (c : Cell) : Z :=
  match tileAt e c with
  | None => 1
  | Some t => default 1 (costMap e !! t)
  end.

(** The 4-connected neighbours of a cell in the fixed order N, E, S, W. *)
Definition neighbours (c : Cell) : list Cell :=
  [(c.1, c.2 - 1); (c.1 + 1, c.2); (c.1, c.2 + 1); (c.1 - 1, c.2)].

(** An entry of the search frontier: the cost of the route found to the cell,
    the cell, and the route before the cell, latest cell first. *)
Definition Entry : Type := Z * Cell * list Cell.

(** The frontier entry of least cost, the earliest one among equals, and
    the frontier without it. *)
Fixpoint popMin (open : list Entry) : option (Entry * list Entry) :=
  match open with
  | [] => None
  | e :: open' =>
    match popMin open' with
    | None => Some (e, [])
    | Some (e', rest) =>
      if e.1.1 <=? e'.1.1 then Some (e, open') else Some (e', e :: rest)
    end
  end.

Definition expand (e : EasyStar) (closed : gset Cell) (d : Z) (c : Cell)
    (p : list Cell) : list Entry :=
  (fun n => (d + costOf e n, n, c :: p)) <$>
    filter (fun n => isWalkable e n = true ∧ n ∉ closed) (neighbours c).

Fixpoint searchLoop (e : EasyStar) (goal : Cell) (fuel : nat)
    (open : list Entry) (closed : gset Cell) : option (list Cell) :=
  match fuel with
  | O => None
  | S fuel' =>
    match popMin open with
    | None => None
    | Some ((d, c, p), rest) =>
      if decide (c ∈ closed) then searchLoop e goal fuel' rest closed
      else if decide (c = goal) then Some (reverse (c :: p))
      else
        let closed' := {[ c ]} ∪ closed in
        searchLoop e goal fuel' (rest ++ expand e closed' d c p) closed'
    end
  end.

(** The cells of a grid, row by row. *)
Definition rowCells (y : nat) (row : list Z) : list Cell :=
  (fun x => (Z.of_nat x, Z.of_nat y)) <$> seq 0 (length row).

Definition allCells (g : list (list Z)) : list Cell :=
  mjoin (imap rowCells g).

(** Modelled from the spec: [findPath(grid, start, goal)], the search of the
    pathfinding library that [finder.findPath] and [finder.calculate] run and
    whose code is not in this file. A uniform-cost search over the 4-connected
    neighbour graph, where an edge into a cell exists only if the cell is
    walkable and weighs the cell's cost; among routes of least cost the first
    one discovered wins. The result is [None] (not found) when the start or
    the goal is outside the grid or not walkable, or when no route connects
    them. The search visits every cell at most once, so the number of its
    steps is bounded by the size of the grid. *)
Definition findPath (e : EasyStar) (start goal : Cell) : option (list Cell) :=
  if isWalkable e start && isWalkable e goal then
    searchLoop e goal (4 * length (allCells (grid e)) + 2)
               [(0, start, [])] ∅
  else None.

(** ** Routes *)

Definition adjacent (a b : Cell) : Prop := b ∈ neighbours a.

(** Every pair of consecutive cells of the path is 4-directionally adjacent. *)
Fixpoint linked (p : list Cell) : Prop :=
  match p with
  | [] => True
  | a :: t => match t with
              | [] => True
              | b :: _ => adjacent a b
              end ∧ linked t
  end.

(** A walkable route from [s] to [t]: it starts at [s], ends at [t], all its
    cells are walkable and consecutive cells are adjacent. *)
Definition route (e : EasyStar) (s t : Cell) (p : list Cell) : Prop :=
  head p = Some s ∧ last p = Some t ∧
  Forall (fun c => isWalkable e c = true) p ∧ linked p.

(** What the search keeps for a cell it has reached: the route to it, latest
    cell first. *)
Definition trail (e : EasyStar) (s : Cell) (l : list Cell) : Prop :=
  last l = Some s ∧ Forall (fun c => isWalkable e c = true) l ∧ linked l.

(** The invariant of the search loop: every frontier entry carries the route
    it was reached by; the walkable neighbours of a closed cell are closed or
    on the frontier, and so is the start; the goal is not closed; closed cells
    lie in the grid. *)
Definition frontierInv (e : EasyStar) (s goal : Cell) (open : list Entry)
    (closed : gset Cell) : Prop :=
  (∀ d c p, (d, c, p) ∈ open → trail e s (c :: p)) ∧
  (∀ c n, c ∈ closed → n ∈ neighbours c → isWalkable e n = true →
          n ∈ closed ∨ ∃ d p, (d, n, p) ∈ open) ∧
  (s ∈ closed ∨ ∃ d p, (d, s, p) ∈ open) ∧
  (goal ∉ closed) ∧
  (∀ c, c ∈ closed → c ∈ allCells (grid e)).

(** The same, as a test that can be run. *)
Fixpoint linkedb (p : list Cell) : bool :=
  match p with
  | [] => true
  | a :: t => match t with
              | [] => true
              | b :: _ => bool_decide (b ∈ neighbours a)
              end && linkedb t
  end.

Definition routeb (e : EasyStar) (s t : Cell) (p : list Cell) : bool :=
  bool_decide (head p = Some s) && bool_decide (last p = Some t)
  && forallb (isWalkable e) p && linkedb p.

(** ** update *)

(** Modelled from the spec: the engine's tile-to-world conversion, the
    position of a tile's top-left corner. *)
Definition tileToWorldX (m : Tilemap) (tx : Z) : Z := tx * tileWidth m.
Definition tileToWorldY (m : Tilemap) (ty : Z) : Z := ty * tileHeight m.

(** The arrow keys: [cursors.left.isDown] and so on. *)
Record Cursors := {
  leftDown : bool;
  rightDown : bool;
  upDown : bool;
  downDown : bool
}.

(** The player sprite as [update] uses it: the velocity of its body, the key
    of the animation that plays, if any, and the frame last set by
    [setTexture]. A velocity is a pair of floating-point numbers, which are
    rationals. *)
Record Sprite := {
  velocity : Q * Q;
  anim : option string;
  frame : string
}.

Definition speed : Q := 175 # 1.

(** The velocity that [update] sets from the keys, before it is normalized:
    [setVelocity(0)], then the horizontal and the vertical movement. *)
Definition steer (c : Cursors) : Q * Q :=
  let v := (0 # 1, 0 # 1) in
  let v := if leftDown c then (Qopp speed, v.2)
           else if rightDown c then (speed, v.2)
           else v in
  let v := if upDown c then (v.1, Qopp speed)
           else if downDown c then (v.1, speed)
           else v in
  v.

Definition scale (v : Q * Q) (s : Q) : Q * Q := (Qmult v.1 s, Qmult v.2 s).

(** The frame that [update] picks for a sprite that stands still, from the
    velocity it had: the former frame when no test succeeds. *)
Definition idleFrame (prevVelocity : Q * Q) (former : string) : string :=
  if Qlt_le_dec prevVelocity.1 (0 # 1) then "misa-left"
  else if Qlt_le_dec (0 # 1) prevVelocity.1 then "misa-right"
  else if Qlt_le_dec prevVelocity.2 (0 # 1) then "misa-back"
  else if Qlt_le_dec (0 # 1) prevVelocity.2 then "misa-front"
  else former.

Definition set_marker (mk : Z * Z) (g : Game) : Game :=
  {| map := map g; finder := finder g; marker := mk; player := player g;
     camera := camera g; timelines := timelines g; console := console g |}.

Definition ret {A} (a : A) : M A := fun g => Returned a g.

(** The last part of [update]: the marker is put on the tile under the
    pointer, whose world position [worldPoint] the engine computes, and is
    shown unless that tile collides. The result is the visibility. A position
    enters only through the tile it lies in, which depends on its integer
    part alone. *)
Definition updateMarker (worldPoint : Z * Z) : M bool :=
  do! g := get in
  let pointerTileX := worldToTileX (map g) worldPoint.1 in
  let pointerTileY := worldToTileY (map g) worldPoint.2 in
  modify (set_marker (tileToWorldX (map g) pointerTileX,
                      tileToWorldY (map g) pointerTileY)) ;;;
  ret (negb (checkCollision (map g) pointerTileX pointerTileY)).

Section Update.

(** The engine's [Vector2.normalize], which works in floating point. *)
Variable normalize : Q * Q -> Q * Q.

(** The first part of [update]: velocity, animation and idle frame of the
    player. *)
Definition updatePlayer (c : Cursors) (p : Sprite) : Sprite :=
  let prevVelocity := velocity p in
  let v := scale (normalize (steer c)) speed in
  if leftDown c then
    {| velocity := v; anim := Some "misa-left-walk"; frame := frame p |}
  else if rightDown c then
    {| velocity := v; anim := Some "misa-right-walk"; frame := frame p |}
  else if upDown c then
    {| velocity := v; anim := Some "misa-back-walk"; frame := frame p |}
  else if downDown c then
    {| velocity := v; anim := Some "misa-front-walk"; frame := frame p |}
  else
    {| velocity := v; anim := None; frame := idleFrame prevVelocity (frame p) |}.

Definition update (c : Cursors) (worldPoint : Z * Z) (p : Sprite)
  : M (Sprite * bool) :=
  let p := updatePlayer c p in
  do! visible := updateMarker worldPoint in
  ret (p, visible).

End Update.

(** ** A small map to run the definitions on *)

Module Sample.

Definition grass : Tile :=
  {| index := 1; properties := noProperties; collision := false |}.

Definition wall : Tile :=
  {| index := 3;
     properties := {| collides := Some true; cost := None |};
     collision := true |}.

Definition sand : Tile :=
  {| index := 4;
     properties := {| collides := None; cost := Some 3 |};
     collision := false |}.

(** Three columns, two rows. "Below Player" is grass everywhere except at
    (2, 1), which is empty; "World" has a wall at (1, 0) and sand at
    (1, 1). *)
Definition below : LayerData :=
  {| data := list_to_map [((0, 0), grass); ((1, 0), grass); ((2, 0), grass);
                          ((0, 1), grass); ((1, 1), grass)];
     collideIndexes := [] |}.

Definition world : LayerData :=
  {| data := list_to_map [((1, 0), wall); ((1, 1), sand)];
     collideIndexes := [] |}.

Definition tiles : Tileset :=
  {| firstgid := 1; total := 5;
     tileProperties :=
       list_to_map [(2, {| collides := Some true; cost := None |});
                    (3, {| collides := None; cost := Some 3 |});
                    (4, {| collides := Some false; cost := Some 0 |})] |}.

Definition holed : Tilemap :=
  {| width := 3; height := 2; tileWidth := 32; tileHeight := 32;
     layers := list_to_map [("Below Player", below); ("World", world)];
     tilesets := [tiles] |}.

(** The same map with the hole at (2, 1) filled. *)
Definition town : Tilemap :=
  {| width := 3; height := 2; tileWidth := 32; tileHeight := 32;
     layers := list_to_map
       [("Below Player",
         {| data := <[(2, 1) := grass]> (data below); collideIndexes := [] |});
        ("World", world)];
     tilesets := [tiles] |}.

Definition townFinder : EasyStar :=
  match createFinder town tiles with
  | Ok e => e
  | Throw _ => newEasyStar
  end.

Definition game (mk : Z * Z) : Game :=
  {| map := town; finder := townFinder; marker := mk; player := (16, 16);
     camera := (0, 0); timelines := []; console := [] |}.

(** The same game after the cell (1, 1) was turned into an obstacle: with
    the wall at (1, 0), the cell (2, 0) is cut off from (0, 0). *)
Definition cutGame (mk : Z * Z) : Game :=
  {| map := town; finder := avoidAdditionalPoint 1 1 townFinder;
     marker := mk; player := (16, 16); camera := (0, 0);
     timelines := []; console := [] |}.

End Sample.

(** * Properties *)

(** ** Loops that push one value per turn *)

Lemma forM_ext {S} (f g : Z -> S -> result S) n i s :
  (∀ x a, f x a = g x a) → forM n i f s = forM n i g s.
Proof.
  intros Hfg. revert i s. induction n as [|n IH]; intros i s; simpl; [done|].
  rewrite Hfg. destruct (g i s); simpl; auto.
Qed.

Section Push.
Context {A : Type} (f : Z -> result A).

Lemma forM_push_ok n : ∀ i acc r,
  forM n i (push f) acc = Ok r →
  ∃ vs, r = acc ++ vs ∧ length vs = n ∧
        ∀ k v, vs !! k = Some v → f (i + Z.of_nat k) = Ok v.
Proof.
  induction n as [|n IH]; intros i acc r H; simpl in H.
  - exists []. inversion H; subst. rewrite app_nil_r. repeat split; auto.
    intros k v Hk. rewrite lookup_nil in Hk. discriminate.
  - unfold push at 1 in H. destruct (f i) as [v0|] eqn:Hf; simpl in H; [|discriminate].
    apply IH in H as (vs & -> & Hlen & Hvs).
    exists (v0 :: vs). rewrite <- app_assoc. simpl. repeat split; auto.
    intros [|k] v Hk; simpl in Hk.
    + inversion Hk; subst. rewrite Z.add_0_r. done.
    + apply Hvs in Hk. rewrite <- Hk. f_equal. lia.
Qed.

Lemma forM_push_total n : ∀ i acc,
  (∀ k, (k < n)%nat → ∃ v, f (i + Z.of_nat k) = Ok v) →
  ∃ r, forM n i (push f) acc = Ok r.
Proof.
  induction n as [|n IH]; intros i acc H; simpl.
  - eauto.
  - destruct (H 0%nat) as [v Hv]; [lia|]. rewrite Z.add_0_r in Hv.
    unfold push at 1. rewrite Hv. simpl. apply IH.
    intros k Hk. destruct (H (S k)) as [w Hw]; [lia|].
    exists w. rewrite <- Hw. f_equal. lia.
Qed.
End Push.

(** ** Tile queries *)

Lemma IsInLayerBounds_spec m x y :
  IsInLayerBounds m x y = true ↔ 0 ≤ x < width m ∧ 0 ≤ y < height m.
Proof. unfold IsInLayerBounds. rewrite !andb_true_iff. lia. Qed.

Lemma getTileAt_outside m x y layer :
  ¬ (0 ≤ x < width m ∧ 0 ≤ y < height m) → getTileAt m x y layer = None.
Proof.
  intros H. unfold getTileAt. destruct (layers m !! layer); [|done].
  destruct (IsInLayerBounds m x y) eqn:E; [|done].
  apply IsInLayerBounds_spec in E. tauto.
Qed.

Lemma getTileID_tileOf m x y :
  getTileID m x y = match tileOf m x y with
                    | Some t => Ok (index t)
                    | None => Throw TypeError
                    end.
Proof. unfold getTileID, tileOf. by destruct (getTileAt m x y "World"). Qed.

Lemma getTileID_Ok m x y v :
  getTileID m x y = Ok v ↔ ∃ t, tileOf m x y = Some t ∧ index t = v.
Proof.
  rewrite getTileID_tileOf. destruct (tileOf m x y) as [t|].
  - split; [intros [= <-]; eauto | intros (? & [= <-] & <-); done].
  - split; [done | intros (? & ? & _); done].
Qed.

(** ** The grid *)

Lemma buildRow_ok m y row :
  buildRow m y = Ok row →
  length row = Z.to_nat (width m) ∧
  ∀ x, 0 ≤ x < width m →
       ∃ t, tileOf m x y = Some t ∧ row !! Z.to_nat x = Some (index t).
Proof.
  intros H. apply (forM_push_ok (fun x => getTileID m x y)) in H
    as (vs & -> & Hlen & Hvs).
  split; [done|]. intros x Hx. simpl.
  destruct (lookup_lt_is_Some_2 vs (Z.to_nat x)) as [v Hv]; [lia|].
  pose proof (Hvs _ _ Hv) as Hid. rewrite Z2Nat.id, Z.add_0_l in Hid by lia.
  apply getTileID_Ok in Hid as (t & Ht & <-). eauto.
Qed.

Lemma buildRow_total m y :
  (∀ x, 0 ≤ x < width m → is_Some (tileOf m x y)) →
  ∃ row, buildRow m y = Ok row.
Proof.
  intros H. apply (forM_push_total (fun x => getTileID m x y)).
  intros k Hk. destruct (H (0 + Z.of_nat k)) as [t Ht]; [lia|].
  exists (index t). apply getTileID_Ok. eauto.
Qed.

Lemma buildGrid_ok m g :
  buildGrid m = Ok g →
  length g = Z.to_nat (height m) ∧
  ∀ y, 0 ≤ y < height m →
       ∃ row, g !! Z.to_nat y = Some row ∧ buildRow m y = Ok row.
Proof.
  intros H. apply (forM_push_ok (buildRow m)) in H as (vs & -> & Hlen & Hvs).
  split; [done|]. intros y Hy. simpl.
  destruct (lookup_lt_is_Some_2 vs (Z.to_nat y)) as [row Hrow]; [lia|].
  pose proof (Hvs _ _ Hrow) as Hr. rewrite Z2Nat.id, Z.add_0_l in Hr by lia.
  eauto.
Qed.

Lemma buildGrid_total m :
  (∀ x y, 0 ≤ x < width m → 0 ≤ y < height m → is_Some (tileOf m x y)) →
  ∃ g, buildGrid m = Ok g.
Proof.
  intros H. apply (forM_push_total (buildRow m)).
  intros k Hk. apply buildRow_total. intros x Hx. apply H; lia.
Qed.

Lemma buildGrid_rows m g row :
  buildGrid m = Ok g → row ∈ g → length row = Z.to_nat (width m).
Proof.
  intros H Hin. apply (forM_push_ok (buildRow m)) in H as (vs & -> & Hlen & Hvs).
  simpl in Hin. apply list_elem_of_lookup in Hin as [k Hk].
  apply Hvs in Hk. by apply buildRow_ok in Hk as [? _].
Qed.

Lemma buildGrid_covered m g x y :
  buildGrid m = Ok g → 0 ≤ x < width m → 0 ≤ y < height m →
  ∃ row t, g !! Z.to_nat y = Some row ∧ row !! Z.to_nat x = Some (index t) ∧
           tileOf m x y = Some t.
Proof.
  intros H Hx Hy. apply buildGrid_ok in H as [_ H].
  destruct (H y Hy) as (row & Hrow & Hb).
  apply buildRow_ok in Hb as [_ Hb]. destruct (Hb x Hx) as (t & Ht & Hl).
  eauto.
Qed.

(** ** The walkable-tile list *)

Lemma classifyTile_spec props i acc fd :
  classifyTile props i (acc, fd) =
  (if accepts props i then acc ++ [i + 1] else acc,
   match registers props i with
   | Some c => setTileCost (i + 1) c fd
   | None => fd
   end).
Proof.
  unfold classifyTile, accepts, registers.
  destruct (props !! i) as [p|]; [|done].
  destruct (truthyNum (cost p)) eqn:E; [|done].
  destruct (cost p); [done | discriminate].
Qed.

Lemma forEach_classify props n : ∀ lo acc fd,
  ∃ acc' fd', forEach n lo (classifyTile props) (acc, fd) = (acc', fd') ∧
    (∀ j, j ∈ acc' ↔ j ∈ acc ∨
            (lo ≤ j - 1 < lo + Z.of_nat n ∧ accepts props (j - 1) = true)) ∧
    (∀ j, costMap fd' !! j =
          if decide (lo ≤ j - 1 < lo + Z.of_nat n ∧ is_Some (registers props (j - 1)))
          then registers props (j - 1) else costMap fd !! j) ∧
    grid fd' = grid fd ∧ pointsToAvoid fd' = pointsToAvoid fd.
Proof.
  induction n as [|n IH]; intros lo acc fd; cbn [forEach].
  - exists acc, fd. split; [done|]. split; [|split; [|done]].
    + intros j. split; [tauto|]. intros [?|[? _]]; [done | lia].
    + intros j. case_decide as Hd; [lia | done].
  - rewrite classifyTile_spec.
    destruct (IH (lo + 1)
                 (if accepts props lo then acc ++ [lo + 1] else acc)
                 (match registers props lo with
                  | Some c => setTileCost (lo + 1) c fd
                  | None => fd
                  end)) as (acc' & fd' & -> & Hacc & Hcost & Hgrid & Havoid).
    exists acc', fd'. split; [done|]. split; [intros j; split|split; [|split]].
    + rewrite Hacc. intros [Hin|[Hr Ha]].
      * destruct (accepts props lo) eqn:E.
        -- apply elem_of_app in Hin as [?|Hin]; [tauto|].
           apply list_elem_of_singleton in Hin. subst j. right.
           replace (lo + 1 - 1) with lo by lia. split; [lia | done].
        -- tauto.
      * right. split; [lia | done].
    + rewrite Hacc. intros [Hin|[Hr Ha]].
      * left. destruct (accepts props lo); [|done].
        apply elem_of_app. tauto.
      * destruct (decide (j - 1 = lo)) as [Heq|Hne].
        -- left. rewrite Heq in Ha. rewrite Ha. apply elem_of_app. right.
           apply list_elem_of_singleton. lia.
        -- right. split; [lia | done].
    + intros j. rewrite Hcost.
      destruct (decide (j - 1 = lo)) as [Heq|Hne].
      * rewrite decide_False by lia.
        rewrite Heq. assert (j = lo + 1) as -> by lia.
        destruct (registers props lo) as [c|] eqn:E.
        -- rewrite decide_True by (split; [lia | eauto]).
           simpl. apply lookup_insert_eq.
        -- rewrite decide_False; [done|]. intros [_ [? ?]]. done.
      * assert (costMap (match registers props lo with
                         | Some c => setTileCost (lo + 1) c fd
                         | None => fd
                         end) !! j = costMap fd !! j) as ->.
        { destruct (registers props lo); [|done]. simpl.
          apply lookup_insert_ne. lia. }
        destruct (decide (lo + 1 ≤ j - 1 < lo + 1 + Z.of_nat n
                          ∧ is_Some (registers props (j - 1)))) as [Hd|Hd].
        -- rewrite decide_True; [done|]. split; [lia | tauto].
        -- rewrite decide_False; [done|]. intros [? ?]. apply Hd.
           split; [lia | done].
    + rewrite Hgrid. by destruct (registers props lo).
    + rewrite Havoid. by destruct (registers props lo).
Qed.

Lemma classifyTiles_spec tileset tileset2 fd :
  let props := tileProperties tileset2 in
  let fd' := classifyTiles tileset tileset2 fd in
  (∀ i, firstgid tileset2 - 1 ≤ i < total tileset →
        (i + 1 ∈ acceptableTiles fd' ↔ accepts props i = true) ∧
        costMap fd' !! (i + 1) =
          match registers props i with
          | Some c => Some c
          | None => costMap fd !! (i + 1)
          end) ∧
  grid fd' = grid fd ∧ pointsToAvoid fd' = pointsToAvoid fd.
Proof.
  intros props fd'. subst fd'. unfold classifyTiles.
  destruct (forEach_classify props
              (Z.to_nat (total tileset - (firstgid tileset2 - 1)))
              (firstgid tileset2 - 1) [] fd)
    as (acc' & fd' & Heq & Hacc & Hcost & Hgrid & Havoid).
  fold props. rewrite Heq. simpl. split; [|done].
  intros i Hi. split.
  - rewrite Hacc. replace (i + 1 - 1) with i by lia. split.
    + intros [Hin|[_ ?]]; [|done]. by apply elem_of_nil in Hin.
    + intros Ha. right. split; [lia | done].
  - rewrite Hcost. replace (i + 1 - 1) with i by lia.
    destruct (registers props i) as [c|] eqn:E.
    + case_decide as Hd; [done|]. exfalso. apply Hd. split; [lia | eauto].
    + case_decide as Hd; [|done]. destruct Hd as [_ [? ?]]. done.
Qed.

(** ** Tweens of a path *)

Lemma pathTweens_tail m path :
  pathTweens m path = Ok (tweenTo m <$> tail path).
Proof.
  unfold pathTweens.
  rewrite (forM_ext _ (push (fun i => let! c := pathAt path (i + 1) in
                                      Ok (tweenTo m c))))
    by (intros x a; unfold pushTween, push; by destruct (pathAt path (x + 1))).
  set (f := fun i => let! c := pathAt path (i + 1) in Ok (tweenTo m c)).
  set (n := Z.to_nat (Z.of_nat (length path) - 1)).
  assert (Hn : n = length (tail path)) by (subst n; destruct path; simpl; lia).
  assert (Hf : ∀ k, (k < n)%nat →
                    ∃ c, tail path !! k = Some c ∧
                         f (0 + Z.of_nat k) = Ok (tweenTo m c)).
  { intros k Hk. destruct (lookup_lt_is_Some_2 (tail path) k) as [c Hc]; [lia|].
    exists c. split; [done|]. subst f. cbv beta. unfold pathAt.
    replace (Z.to_nat (0 + Z.of_nat k + 1)) with (S k) by lia.
    destruct path; [done|]. simpl in *. by rewrite Hc. }
  destruct (forM_push_total f n 0 []) as [r Hr].
  { intros k Hk. destruct (Hf k Hk) as (c & _ & ?). eauto. }
  rewrite Hr. f_equal.
  apply forM_push_ok in Hr as (vs & -> & Hlen & Hvs). simpl.
  apply list_eq. intros k. rewrite list_lookup_fmap.
  destruct (decide (k < n)%nat) as [Hk|Hk].
  - destruct (Hf k Hk) as (c & Hc & Hfc). rewrite Hc. simpl.
    destruct (lookup_lt_is_Some_2 vs k) as [v Hv]; [lia|].
    rewrite Hv. apply Hvs in Hv. congruence.
  - rewrite !lookup_ge_None_2; [done | lia | lia].
Qed.

Lemma moveCharacter_spec path g :
  moveCharacter path g =
  Returned tt (add_timeline (tweenTo (map g) <$> tail path)
                            (add_console LogMoveCharacter g)).
Proof.
  unfold moveCharacter, bind, consoleLog, modify, get. simpl.
  by rewrite pathTweens_tail.
Qed.

(** ** Placing an obstacle *)

Lemma set_layer_id name l m :
  layers m !! name = Some l → set_layer name l m = m.
Proof.
  intros H. destruct m as [w h tw th ls ts]. unfold set_layer. simpl in *.
  f_equal. by apply insert_id.
Qed.

Lemma set_map_id g : set_map (map g) g = g.
Proof. by destruct g. Qed.

Lemma changeTile_outside g l :
  layers (map g) !! "World" = Some l →
  IsInLayerBounds (map g) (markerCell g).1 (markerCell g).2 = false →
  changeTile g = Raised TypeError g.
Proof.
  intros Hl Hb. unfold changeTile, bind, get. rewrite Hl.
  unfold putTileAtWorldXY, putTileAt. unfold markerCell in Hb. simpl in Hb.
  rewrite Hb. unfold modify, throw. simpl.
  by rewrite (set_layer_id _ _ _ Hl), set_map_id.
Qed.

Lemma changeTile_inside g l :
  layers (map g) !! "World" = Some l →
  IsInLayerBounds (map g) (markerCell g).1 (markerCell g).2 = true →
  changeTile g =
  Returned tt
    {| map := set_layer "World" (placedLayer l (markerCell g)) (map g);
       finder := avoidAdditionalPoint (markerCell g).1 (markerCell g).2 (finder g);
       marker := marker g; player := player g; camera := camera g;
       timelines := timelines g;
       console := console g ++
                  [LogTileProperties (properties (placed l (markerCell g)))] |}.
Proof.
  intros Hl Hb. unfold changeTile, bind, get. rewrite Hl.
  unfold putTileAtWorldXY, putTileAt. unfold markerCell in *. simpl in Hb.
  rewrite Hb. unfold modify, throw, consoleLog, modify. simpl.
  rewrite lookup_insert_eq. simpl. f_equal.
  unfold set_finder, set_map, add_console, set_layer, setCollision, placedLayer,
    placed. simpl. f_equal. f_equal. f_equal.
  rewrite alter_insert_eq. done.
Qed.

Lemma IsInLayerBounds_set_layer name l m x y :
  IsInLayerBounds (set_layer name l m) x y = IsInLayerBounds m x y.
Proof. reflexivity. Qed.

Lemma placedLayer_again l c :
  placedLayer (placedLayer l c) c = placedLayer l c.
Proof.
  unfold placedLayer, placed. simpl. rewrite lookup_insert_eq. simpl.
  by rewrite insert_insert_eq.
Qed.

Lemma set_layer_again name l l' m :
  set_layer name l (set_layer name l' m) = set_layer name l m.
Proof. unfold set_layer. simpl. by rewrite insert_insert_eq. Qed.

Lemma avoidAdditionalPoint_again x y e :
  avoidAdditionalPoint x y (avoidAdditionalPoint x y e)
  = avoidAdditionalPoint x y e.
Proof.
  unfold avoidAdditionalPoint. simpl. f_equal. apply set_eq. intros c.
  rewrite !elem_of_union. tauto.
Qed.

(** Calling [changeTile] a second time changes nothing but the console. *)
Lemma changeTile_twice g l g1 :
  layers (map g) !! "World" = Some l →
  changeTile g = Returned tt g1 →
  ∃ g2, changeTile g1 = Returned tt g2 ∧ sameButConsole g2 g1.
Proof.
  intros Hl H1.
  destruct (IsInLayerBounds (map g) (markerCell g).1 (markerCell g).2) eqn:Hb.
  - rewrite (changeTile_inside g l Hl Hb) in H1. injection H1 as Hg1. symmetry in Hg1.
    set (c := markerCell g) in *.
    assert (Hl1 : layers (map g1) !! "World" = Some (placedLayer l c))
      by (subst g1; simpl; apply lookup_insert_eq).
    assert (Hc1 : markerCell g1 = c) by (subst g1; reflexivity).
    assert (Hb1 : IsInLayerBounds (map g1) (markerCell g1).1 (markerCell g1).2
                  = true) by (rewrite Hc1; subst g1; exact Hb).
    rewrite (changeTile_inside g1 _ Hl1 Hb1). eexists. split; [done|].
    rewrite Hc1. simpl. rewrite placedLayer_again.
    subst g1. unfold sameButConsole. simpl.
    rewrite set_layer_again, avoidAdditionalPoint_again. done.
  - rewrite (changeTile_outside g l Hl Hb) in H1. discriminate.
Qed.

(** What [avoidAdditionalPoint] does to the walkability of cells. *)
Lemma isWalkable_avoid x y e c :
  isWalkable (avoidAdditionalPoint x y e) c
  = isWalkable e c && bool_decide (c ≠ (x, y)).
Proof.
  unfold isWalkable, tileAt. simpl.
  destruct ((0 <=? c.1) && (0 <=? c.2)); [|done].
  destruct (grid e !! Z.to_nat c.2) as [row|]; [|done].
  destruct (row !! Z.to_nat c.1) as [t|]; [|done].
  rewrite <- andb_assoc. f_equal.
  apply eq_true_iff_eq. rewrite andb_true_iff, !bool_decide_eq_true.
  rewrite not_elem_of_union, elem_of_singleton. tauto.
Qed.

(** ** The click handler *)

Section Click.
Variable search : EasyStar -> Cell -> Cell -> option (list Cell).

Lemma requestPath_spec pointer g :
  requestPath search pointer g =
  Returned tt
    match search (finder g) (clickCells pointer g).1 (clickCells pointer g).2 with
    | None => add_console WarnPathNotFound (announced pointer g)
    | Some p =>
      add_timeline (tweenTo (map g) <$> tail p)
        (add_console LogMoveCharacter
           (add_console (LogPath p) (announced pointer g)))
    end.
Proof.
  unfold requestPath, bind, consoleLog, modify, get. simpl.
  destruct (search _ _ _) as [p|]; simpl; [|done].
  unfold bind, consoleLog, modify. by rewrite moveCharacter_spec.
Qed.

(** The path request returns, and touches only the console and the
    timelines. *)
Lemma requestPath_frame pointer g :
  ∃ g', requestPath search pointer g = Returned tt g' ∧
        map g' = map g ∧ finder g' = finder g ∧ marker g' = marker g ∧
        player g' = player g ∧ camera g' = camera g.
Proof.
  rewrite requestPath_spec. eexists. split; [done|].
  by destruct (search _ _ _).
Qed.

Lemma requestPath_markerCell pointer g g' :
  requestPath search pointer g = Returned tt g' → markerCell g' = markerCell g.
Proof.
  intros H. destruct (requestPath_frame pointer g) as (g0 & H0 & Hm & _ & Hk & _).
  rewrite H in H0. injection H0 as <-. unfold markerCell. by rewrite Hm, Hk.
Qed.

Lemma handleClick_changeTile pointer g :
  ∃ g', requestPath search pointer g = Returned tt g' ∧
        handleClick search pointer g = changeTile g'.
Proof.
  destruct (requestPath_frame pointer g) as (g' & Hr & _).
  exists g'. split; [done|]. unfold handleClick, bind. by rewrite Hr.
Qed.
End Click.

(** ** The frontier *)

Lemma popMin_None (open : list Entry) : popMin open = None → open = [].
Proof.
  destruct open as [|e open]; [done|]. simpl.
  destruct (popMin open) as [[e' rest]|]; [|done].
  by destruct (e.1.1 <=? e'.1.1).
Qed.

Lemma popMin_Some (open : list Entry) e rest :
  popMin open = Some (e, rest) → open ≡ₚ e :: rest.
Proof.
  revert e rest. induction open as [|a open IH]; intros e rest H; [done|].
  simpl in H. destruct (popMin open) as [[e' rest']|] eqn:E.
  - destruct (a.1.1 <=? e'.1.1); inversion H; subst; [done|].
    rewrite (IH _ _ eq_refl). apply perm_swap.
  - apply popMin_None in E. subst. by inversion H.
Qed.

Lemma length_expand e closed d c p : (length (expand e closed d c p) ≤ 4)%nat.
Proof.
  unfold expand. rewrite length_fmap.
  etrans; [apply length_filter|]. done.
Qed.

Lemma elem_of_expand e closed d c p x :
  x ∈ expand e closed d c p ↔
  ∃ n, x = (d + costOf e n, n, c :: p) ∧ n ∈ neighbours c ∧
       isWalkable e n = true ∧ n ∉ closed.
Proof.
  unfold expand. rewrite list_elem_of_fmap. split.
  - intros (n & -> & Hn). apply list_elem_of_filter in Hn as [[? ?] ?]. eauto 6.
  - intros (n & -> & ? & ? & ?). exists n. split; [done|].
    apply list_elem_of_filter. auto.
Qed.

(** ** Routes *)

Lemma adjacent_sym a b : adjacent a b → adjacent b a.
Proof.
  unfold adjacent, neighbours. destruct a as [ax ay], b as [bx b_y]. simpl.
  rewrite !elem_of_cons, !elem_of_nil.
  intros [H|[H|[H|[H|[]]]]]; inversion H; subst.
  - right; right; left. f_equal; lia.
  - right; right; right; left. f_equal; lia.
  - left. f_equal; lia.
  - right; left. f_equal; lia.
Qed.

Lemma linked_snoc p x :
  linked (p ++ [x]) ↔
  linked p ∧ match last p with Some y => adjacent y x | None => True end.
Proof.
  induction p as [|a p IH]; simpl; [tauto|].
  destruct p as [|b p]; simpl in *; [tauto|].
  rewrite IH. tauto.
Qed.

Lemma linked_reverse p : linked p → linked (reverse p).
Proof.
  induction p as [|a p IH]; [done|]. intros [Ha Hp].
  rewrite reverse_cons. apply linked_snoc. split; [by apply IH|].
  rewrite last_reverse. destruct p as [|b p]; simpl; [done|].
  by apply adjacent_sym.
Qed.

Lemma linkedb_spec p : linkedb p = true ↔ linked p.
Proof.
  induction p as [|a p IH]; simpl; [done|].
  rewrite andb_true_iff, IH. destruct p; [tauto|].
  by rewrite bool_decide_eq_true.
Qed.

Lemma routeb_spec e s t p : routeb e s t p = true ↔ route e s t p.
Proof.
  unfold routeb, route.
  rewrite !andb_true_iff, !bool_decide_eq_true, linkedb_spec, forallb_forall.
  rewrite Forall_forall. setoid_rewrite list_elem_of_In. tauto.
Qed.

(** Consecutive cells of a linked path are adjacent. *)
Lemma linked_lookup p i a b :
  linked p → p !! i = Some a → p !! S i = Some b → adjacent a b.
Proof.
  revert i. induction p as [|c p IH]; intros i Hl Ha Hb; [done|].
  destruct Hl as [Hc Hl]. destruct i as [|i]; simpl in *.
  - destruct p; [done|]. by inversion Ha; inversion Hb; subst.
  - eauto.
Qed.

(** A set of cells that holds the start of a route and is closed under
    walkable neighbours holds its end. *)
Lemma route_stays_inside (e : EasyStar) (X : gset Cell) (p : list Cell) : ∀ s t,
  (∀ c n, c ∈ X → n ∈ neighbours c → isWalkable e n = true → n ∈ X) →
  s ∈ X → route e s t p → t ∈ X.
Proof.
  induction p as [|a p IH]; intros s t HX Hs (Hh & Hl & Hw & Hk); [done|].
  simpl in Hh. inversion Hh; subst a.
  destruct p as [|b p].
  - simpl in Hl. by inversion Hl; subst.
  - destruct Hk as [Hab Hk]. apply Forall_cons in Hw as [_ Hw].
    apply (IH b t HX).
    + apply (HX s b Hs Hab). by apply Forall_cons in Hw as [? _].
    + split; [done|]. split; [exact Hl|]. split; [exact Hw | exact Hk].
Qed.

(** ** The cells of the grid *)

Lemma tileAt_allCells e c t : tileAt e c = Some t → c ∈ allCells (grid e).
Proof.
  unfold tileAt, allCells. destruct c as [x y]. simpl.
  destruct ((0 <=? x) && (0 <=? y)) eqn:E; [|done].
  apply andb_true_iff in E as [Hx Hy]. apply Z.leb_le in Hx, Hy.
  destruct (grid e !! Z.to_nat y) as [row|] eqn:Hrow; [|done]. intros Ht.
  apply list_elem_of_join. exists (rowCells (Z.to_nat y) row). split.
  - unfold rowCells. apply list_elem_of_fmap. exists (Z.to_nat x). split.
    + f_equal; lia.
    + apply elem_of_seq. apply lookup_lt_Some in Ht. lia.
  - by apply elem_of_lookup_imap_2.
Qed.

Lemma isWalkable_allCells e c : isWalkable e c = true → c ∈ allCells (grid e).
Proof.
  unfold isWalkable. destruct (tileAt e c) as [t|] eqn:E; [|done].
  intros _. by eapply tileAt_allCells.
Qed.

Lemma size_within (X : gset Cell) (l : list Cell) :
  (∀ c, c ∈ X → c ∈ l) → (size X ≤ length l)%nat.
Proof.
  intros H. unfold size, set_size. simpl. apply submseteq_length.
  apply NoDup_submseteq; [apply NoDup_elements|].
  intros c Hc. apply H. by apply elem_of_elements.
Qed.

(** ** Soundness and completeness of the search *)

Section SearchLoop.
Variables (e : EasyStar) (s goal : Cell).

Lemma trail_route c p : trail e s (c :: p) → route e s c (reverse (c :: p)).
Proof.
  intros (Hl & Hw & Hk). split; [by rewrite head_reverse|].
  split; [by rewrite last_reverse|].
  split; [by apply Forall_reverse | by apply linked_reverse].
Qed.

Lemma trail_step c p n :
  trail e s (c :: p) → n ∈ neighbours c → isWalkable e n = true →
  trail e s (n :: c :: p).
Proof.
  intros (Hl & Hw & Hk) Hn Hwn. split; [exact Hl|].
  split; [by apply Forall_cons|]. split; [|exact Hk].
  by apply adjacent_sym.
Qed.

Lemma searchLoop_sound fuel : ∀ open closed p,
  (∀ d c q, (d, c, q) ∈ open → trail e s (c :: q)) →
  searchLoop e goal fuel open closed = Some p → route e s goal p.
Proof.
  induction fuel as [|fuel IH]; intros open closed p Hopen H; [done|].
  simpl in H. destruct (popMin open) as [[[[d c] q] rest]|] eqn:Hpop; [|done].
  apply popMin_Some in Hpop.
  assert (Hrest : ∀ d' c' q', (d', c', q') ∈ rest → trail e s (c' :: q')).
  { intros d' c' q' Hin. apply (Hopen d'). rewrite Hpop. by right. }
  assert (Hc : trail e s (c :: q)).
  { apply (Hopen d). rewrite Hpop. by left. }
  destruct (decide (c ∈ closed)); [by eapply IH|].
  destruct (decide (c = goal)) as [->|].
  - inversion H; subst. by apply trail_route.
  - eapply IH; [|exact H]. intros d' c' q' Hin.
    apply elem_of_app in Hin as [Hin|Hin]; [by eapply Hrest|].
    apply elem_of_expand in Hin as (n' & [= -> -> ->] & Hn & Hw & _).
    by apply trail_step.
Qed.

Lemma frontierInv_start :
  isWalkable e s = true → frontierInv e s goal [(0, s, [])] ∅.
Proof.
  intros Hs. split; [|split; [|split; [|split]]].
  - intros d c p Hin. apply list_elem_of_singleton in Hin as [= -> -> ->].
    split; [done|]. split; [|done]. by apply Forall_singleton.
  - intros c n Hc. by apply not_elem_of_empty in Hc.
  - right. exists 0, []. by left.
  - apply not_elem_of_empty.
  - intros c Hc. by apply not_elem_of_empty in Hc.
Qed.

Lemma frontierInv_drop d c p rest open closed :
  open ≡ₚ (d, c, p) :: rest → c ∈ closed →
  frontierInv e s goal open closed → frontierInv e s goal rest closed.
Proof.
  intros Hperm Hc (I1 & I2 & I3 & I4 & I5).
  split; [|split; [|split; [|split]]]; auto.
  - intros d' c' p' Hin. apply (I1 d'). rewrite Hperm. by right.
  - intros c0 n Hc0 Hn Hw. destruct (I2 c0 n Hc0 Hn Hw) as [?|(d' & p' & Hin)];
      [by left|].
    rewrite Hperm in Hin. apply elem_of_cons in Hin as [[= -> -> ->]|Hin];
      [by left | right; eauto].
  - destruct I3 as [?|(d' & p' & Hin)]; [by left|].
    rewrite Hperm in Hin. apply elem_of_cons in Hin as [[= -> -> ->]|Hin];
      [by left | right; eauto].
Qed.

Lemma frontierInv_visit d c p rest open closed :
  open ≡ₚ (d, c, p) :: rest → c ∉ closed → c ≠ goal →
  frontierInv e s goal open closed →
  frontierInv e s goal (rest ++ expand e ({[c]} ∪ closed) d c p)
              ({[c]} ∪ closed).
Proof.
  intros Hperm Hc Hg (I1 & I2 & I3 & I4 & I5).
  assert (Hcp : trail e s (c :: p)) by (apply (I1 d); rewrite Hperm; by left).
  assert (Hkeep : ∀ n, (n ∈ closed ∨ ∃ d' p', (d', n, p') ∈ open) →
    n ∈ {[c]} ∪ closed ∨
    ∃ d' p', (d', n, p') ∈ rest ++ expand e ({[c]} ∪ closed) d c p).
  { intros n [?|(d' & p' & Hin)].
    - left. apply elem_of_union. by right.
    - rewrite Hperm in Hin. apply elem_of_cons in Hin as [[= -> -> ->]|Hin].
      + left. apply elem_of_union. left. by apply elem_of_singleton.
      + right. exists d', p'. apply elem_of_app. by left. }
  split; [|split; [|split; [|split]]].
  - intros d' c' p' Hin. apply elem_of_app in Hin as [Hin|Hin].
    + apply (I1 d'). rewrite Hperm. by right.
    + apply elem_of_expand in Hin as (n & [= -> -> ->] & Hn & Hw & _).
      by apply trail_step.
  - intros c0 n Hc0 Hn Hw. apply elem_of_union in Hc0 as [Hc0|Hc0].
    + apply elem_of_singleton in Hc0. subst c0.
      destruct (decide (n ∈ {[c]} ∪ closed)) as [?|Hout]; [by left|].
      right. exists (d + costOf e n), (c :: p). apply elem_of_app. right.
      apply elem_of_expand. eauto.
    + apply Hkeep. by apply I2 with c0.
  - by apply Hkeep.
  - rewrite not_elem_of_union, elem_of_singleton. split; [congruence | done].
  - intros c0 Hc0. apply elem_of_union in Hc0 as [Hc0|Hc0]; [|by apply I5].
    apply elem_of_singleton in Hc0. subst c0.
    destruct Hcp as (_ & Hw & _). apply Forall_cons in Hw as [Hw _].
    by apply isWalkable_allCells.
Qed.

Lemma frontierInv_stuck closed q :
  frontierInv e s goal [] closed → route e s goal q → False.
Proof.
  intros (I1 & I2 & I3 & I4 & I5) Hq. apply I4.
  apply (route_stays_inside e closed q s goal); [| |done].
  - intros c n Hc Hn Hw. destruct (I2 c n Hc Hn Hw) as [?|(? & ? & Hin)];
      [done | by apply elem_of_nil in Hin].
  - destruct I3 as [?|(? & ? & Hin)]; [done | by apply elem_of_nil in Hin].
Qed.

Lemma searchLoop_complete q fuel : ∀ open closed,
  route e s goal q →
  frontierInv e s goal open closed →
  (4 * length (allCells (grid e)) + length open
   < 4 * size closed + fuel)%nat →
  ∃ p, searchLoop e goal fuel open closed = Some p.
Proof.
  intros open closed Hq. revert open closed.
  induction fuel as [|fuel IH]; intros open closed Hinv Hfuel.
  - destruct Hinv as (_ & _ & _ & _ & I5).
    pose proof (size_within closed _ I5). lia.
  - simpl. destruct (popMin open) as [[[[d c] p] rest]|] eqn:Hpop.
    + apply popMin_Some in Hpop.
      pose proof (Permutation_length Hpop) as Hlen. simpl in Hlen.
      destruct (decide (c ∈ closed)) as [Hc|Hc].
      * apply IH; [by eapply frontierInv_drop | lia].
      * destruct (decide (c = goal)) as [->|Hg]; [eauto|].
        apply IH; [by eapply frontierInv_visit|].
        rewrite length_app.
        pose proof (length_expand e ({[c]} ∪ closed) d c p).
        rewrite size_union by (apply disjoint_singleton_l; done).
        rewrite size_singleton. lia.
    + apply popMin_None in Hpop. subst open.
      exfalso. by eapply frontierInv_stuck.
Qed.
End SearchLoop.

Lemma findPath_sound e s t p : findPath e s t = Some p → route e s t p.
Proof.
  unfold findPath. destruct (isWalkable e s && isWalkable e t) eqn:E; [|done].
  apply andb_true_iff in E as [Hs Ht].
  apply searchLoop_sound. intros d c q Hin.
  by apply (frontierInv_start e s t Hs) in Hin.
Qed.

Lemma route_ends_walkable e s t q :
  route e s t q → isWalkable e s = true ∧ isWalkable e t = true.
Proof.
  intros (Hh & Hl & Hw & _). rewrite Forall_forall in Hw. split; apply Hw.
  - apply head_Some in Hh as [l' ->]. by left.
  - apply last_Some in Hl as [l' ->]. apply elem_of_app. right. by left.
Qed.

Lemma findPath_complete e s t q :
  route e s t q → ∃ p, findPath e s t = Some p.
Proof.
  intros Hq. destruct (route_ends_walkable _ _ _ _ Hq) as [Hs Ht].
  unfold findPath. rewrite Hs, Ht. simpl.
  eapply searchLoop_complete; [exact Hq | by apply frontierInv_start|].
  rewrite size_empty. simpl. lia.
Qed.

Lemma isWalkable_avoid_cell (c0 : Cell) e c :
  isWalkable (avoidAdditionalPoint c0.1 c0.2 e) c
  = isWalkable e c && bool_decide (c ≠ c0).
Proof. rewrite isWalkable_avoid. by destruct c0. Qed.

(** [changeTile] starts no timeline, whether it returns or throws. *)
Lemma changeTile_timelines g :
  timelines (stateOf (changeTile g)) = timelines g.
Proof.
  destruct (layers (map g) !! "World") as [l|] eqn:Hl.
  - destruct (IsInLayerBounds (map g) (markerCell g).1 (markerCell g).2) eqn:Hb.
    + by rewrite (changeTile_inside g l Hl Hb).
    + by rewrite (changeTile_outside g l Hl Hb).
  - unfold changeTile, bind, get. by rewrite Hl.
Qed.

Lemma getTileAt_placed m l c :
  IsInLayerBounds m c.1 c.2 = true →
  getTileAt (set_layer "World" (placedLayer l c) m) c.1 c.2 "World"
  = Some (placed l c).
Proof.
  intros Hb. unfold getTileAt. simpl. rewrite lookup_insert_eq.
  rewrite IsInLayerBounds_set_layer, Hb. simpl.
  rewrite <- surjective_pairing. apply lookup_insert_eq.
Qed.

(** * The claims *)

(** C2: for a path of N >= 1 cells, [moveCharacter] creates exactly N-1
    tweens and hands them to one timeline, in path order and without the
    start cell: the i-th tween targets
    [(path[i+1].x * tileWidth, path[i+1].y * tileHeight)] with duration 200
    on both coordinates; a path of a single cell gives the empty list. *)
Theorem moveCharacter_tweens (path : list Cell) (g : Game) :
  (1 ≤ length path)%nat →
  ∃ tweens,
    pathTweens (map g) path = Ok tweens ∧
    moveCharacter path g =
      Returned tt (add_timeline tweens (add_console LogMoveCharacter g)) ∧
    length tweens = (length path - 1)%nat ∧
    (∀ i, (i < length path - 1)%nat →
          ∃ ex ey, path !! S i = Some (ex, ey) ∧
                   tweens !! i =
                   Some {| tween_x := {| value := ex * tileWidth (map g);
                                         duration := 200 |};
                           tween_y := {| value := ey * tileHeight (map g);
                                         duration := 200 |} |}) ∧
    (length path = 1%nat → tweens = []).
Proof.
  intros Hlen. exists (tweenTo (map g) <$> tail path).
  split; [apply pathTweens_tail|]. split; [apply moveCharacter_spec|].
  destruct path as [|c0 path]; [simpl in Hlen; lia|]. simpl.
  split; [rewrite length_fmap; lia|]. split.
  - intros i Hi. destruct (lookup_lt_is_Some_2 path i) as [[ex ey] Hc]; [lia|].
    exists ex, ey. split; [done|]. rewrite list_lookup_fmap, Hc. done.
  - intros H1. destruct path; [done | simpl in H1; lia].
Qed.

Lemma moveCharacter_tweens_witness :
  (1 ≤ length [(0, 0); (0, 1); (1, 1)])%nat ∧
  ∃ tweens, pathTweens Sample.town [(0, 0); (0, 1); (1, 1)] = Ok tweens ∧
            length tweens = 2%nat.
Proof.
  split; [simpl; lia|].
  destruct (moveCharacter_tweens [(0, 0); (0, 1); (1, 1)] (Sample.game (0, 0)))
    as (tweens & Ht & _ & Hl & _); [simpl; lia|].
  exists tweens. split; [exact Ht | exact Hl].
Defined.

(** What the loop of [create] does for a tile ID [i] that it visits
    ([tileset2.firstgid - 1 <= i < tileset.total]): gid [i+1] is put on the
    list of acceptable tiles if and only if the property table has no entry
    for [i] or the entry's [collides] is not true; an entry that declares a
    cost other than 0 has that cost registered for gid [i+1]; a tile without
    an entry or without a declared cost keeps the cost it had before the
    loop, and in the pathfinder that [create] builds it has no registered
    cost, so that the default applies. *)
Lemma classifyTiles_walkable_and_cost (tileset tileset2 : Tileset)
    (fd : EasyStar) (i : Z) :
  firstgid tileset2 - 1 ≤ i < total tileset →
  (i + 1 ∈ acceptableTiles (classifyTiles tileset tileset2 fd) ↔
   (tileProperties tileset2 !! i = None ∨
    ∃ p, tileProperties tileset2 !! i = Some p ∧ collides p ≠ Some true)) ∧
  (∀ p c, tileProperties tileset2 !! i = Some p → cost p = Some c → c ≠ 0 →
          costMap (classifyTiles tileset tileset2 fd) !! (i + 1) = Some c) ∧
  ((tileProperties tileset2 !! i = None ∨
    ∃ p, tileProperties tileset2 !! i = Some p ∧ cost p = None) →
   costMap (classifyTiles tileset tileset2 fd) !! (i + 1)
   = costMap fd !! (i + 1) ∧
   ∀ m e, tilesets m !! 0%nat = Some tileset2 →
          createFinder m tileset = Ok e → costMap e !! (i + 1) = None).
Proof.
  intros Hi.
  assert (Hfresh : ∀ m e, tilesets m !! 0%nat = Some tileset2 →
            createFinder m tileset = Ok e →
            ∃ g, e = classifyTiles tileset tileset2 (setGrid g newEasyStar)).
  { intros m e Hts. unfold createFinder.
    destruct (buildGrid m) as [g|]; simpl; [|done]. rewrite Hts.
    intros [= <-]. eauto. }
  destruct (classifyTiles_spec tileset tileset2 fd) as [H _].
  destruct (H i Hi) as [Hacc Hcost]. clear H.
  unfold accepts in Hacc. unfold registers in Hcost.
  split; [|split].
  - rewrite Hacc. destruct (tileProperties tileset2 !! i) as [p|]; [|tauto].
    split.
    + intros Hc. right. exists p. split; [done|].
      destruct (collides p) as [[]|]; simpl in Hc; congruence.
    + intros [?|(p' & [= <-] & Hc)]; [done|].
      destruct (collides p) as [[]|]; simpl; congruence.
  - intros p c Hp Hc Hnz. rewrite Hcost, Hp, Hc. simpl.
    destruct (c =? 0) eqn:E; [apply Z.eqb_eq in E; done | done].
  - intros Hno.
    assert (Hreg : match tileProperties tileset2 !! i with
                   | Some p => if truthyNum (cost p) then cost p else None
                   | None => None
                   end = None).
    { destruct Hno as [Hn|(p & Hp & Hc)]; [by rewrite Hn | by rewrite Hp, Hc]. }
    split.
    + by rewrite Hcost, Hreg.
    + intros m e Hts He. destruct (Hfresh m e Hts He) as [g ->].
      destruct (classifyTiles_spec tileset tileset2 (setGrid g newEasyStar))
        as [H _].
      destruct (H i Hi) as [_ Hc]. unfold registers in Hc.
      rewrite Hc, Hreg. apply lookup_empty.
Qed.

Lemma classifyTiles_walkable_and_cost_witness :
  1 - 1 ≤ 3 < 5 ∧
  4 ∈ acceptableTiles (classifyTiles Sample.tiles Sample.tiles newEasyStar) ∧
  costMap (classifyTiles Sample.tiles Sample.tiles newEasyStar) !! 4 = Some 3.
Proof.
  split; [lia|].
  destruct (classifyTiles_walkable_and_cost Sample.tiles Sample.tiles
              newEasyStar 3) as (Hacc & Hcost & _); [simpl; lia|].
  split.
  - apply Hacc. right. eexists. split; [reflexivity | done].
  - apply (Hcost {| collides := None; cost := Some 3 |} 3);
      [reflexivity | reflexivity | lia].
Defined.

(** C3: the code at the failing input. Tile ID 4 of the sample tileset lies
    in the range of the loop of [create] and its entry declares
    [collides: false] and [cost: 0]. The loop lists gid 5 as acceptable, but
    registers no cost for it: the test [if (properties[i].cost)] reads the
    declared 0 as no cost, although the comment on that line says that a
    cost attached to the tile is registered; the tile is left with the
    default cost. *)
Theorem classifyTiles_drops_declared_cost_zero :
  firstgid Sample.tiles - 1 ≤ 4 < total Sample.tiles ∧
  tileProperties Sample.tiles !! 4
  = Some {| collides := Some false; cost := Some 0 |} ∧
  5 ∈ acceptableTiles (classifyTiles Sample.tiles Sample.tiles newEasyStar) ∧
  costMap (classifyTiles Sample.tiles Sample.tiles newEasyStar) !! 5 = None ∧
  costMap (classifyTiles Sample.tiles Sample.tiles newEasyStar) !! 5 ≠ Some 0.
Proof.
  split; [simpl; lia|]. split; [reflexivity|].
  split; [apply (bool_decide_eq_true_1 _); vm_compute; reflexivity|].
  split; [vm_compute; reflexivity | vm_compute; discriminate].
Qed.

(** C4: the grid built in [create] has exactly [map.height] rows of exactly
    [map.width] entries, and entry [y][x] is the index of the "World" tile at
    [(x, y)], or of the "Below Player" tile when "World" has none there. The
    build completes when every cell of the map has a tile on one of the two
    layers, and the grid is the one [create] hands to the pathfinder. *)
Theorem buildGrid_rectangular (m : Tilemap) :
  ((∀ x y, 0 ≤ x < width m → 0 ≤ y < height m → is_Some (tileOf m x y)) →
   ∃ g, buildGrid m = Ok g) ∧
  (∀ g, buildGrid m = Ok g →
     length g = Z.to_nat (height m) ∧
     (∀ row, row ∈ g → length row = Z.to_nat (width m)) ∧
     (∀ x y, 0 ≤ x < width m → 0 ≤ y < height m →
        ∃ row t, g !! Z.to_nat y = Some row ∧
                 row !! Z.to_nat x = Some (index t) ∧
                 match getTileAt m x y "World" with
                 | Some w => t = w
                 | None => getTileAt m x y "Below Player" = Some t
                 end)) ∧
  (∀ tileset e, createFinder m tileset = Ok e → buildGrid m = Ok (grid e)).
Proof.
  split; [apply buildGrid_total|]. split.
  - intros g Hg. split; [by apply buildGrid_ok in Hg as [? _]|].
    split; [intros row; by apply buildGrid_rows|].
    intros x y Hx Hy.
    destruct (buildGrid_covered m g x y Hg Hx Hy) as (row & t & Hr & Hc & Ht).
    exists row, t. split; [done|]. split; [done|].
    unfold tileOf in Ht. destruct (getTileAt m x y "World"); congruence.
  - intros tileset e. unfold createFinder.
    destruct (buildGrid m) as [g|]; simpl; [|done].
    destruct (tilesets m !! 0%nat) as [tileset2|]; [|done].
    intros [= <-]. f_equal.
    by destruct (classifyTiles_spec tileset tileset2 (setGrid g newEasyStar))
      as (_ & -> & _).
Qed.

Lemma buildGrid_rectangular_witness :
  buildGrid Sample.town = Ok [[1; 3; 1]; [1; 4; 1]] ∧
  length [[1; 3; 1]; [1; 4; 1]] = Z.to_nat (height Sample.town).
Proof.
  destruct (buildGrid_rectangular Sample.town) as (_ & H & _).
  split; [reflexivity|].
  exact (proj1 (H [[1; 3; 1]; [1; 4; 1]] eq_refl)).
Defined.

(** C5, as the code has it: for every cell outside the map's bounds
    [checkCollision] returns false, the answer it gives for a cell without a
    "World" tile: the cell is reported as not colliding. *)
Theorem checkCollision_outside (m : Tilemap) (x y : Z) :
  ¬ (0 ≤ x < width m ∧ 0 ≤ y < height m) → checkCollision m x y = false.
Proof.
  intros H. unfold checkCollision. by rewrite getTileAt_outside.
Qed.

Lemma checkCollision_outside_witness :
  ¬ (0 ≤ -1 < width Sample.town ∧ 0 ≤ 0 < height Sample.town) ∧
  checkCollision Sample.town (-1) 0 = false.
Proof.
  split; [lia|]. apply checkCollision_outside. lia.
Defined.

(** C5 as written fails: the cell (-1, 0) lies outside the sample map and is
    not reported as colliding. *)
Lemma checkCollision_outside_not_blocked :
  ¬ (0 ≤ -1 < width Sample.town ∧ 0 ≤ 0 < height Sample.town) ∧
  checkCollision Sample.town (-1) 0 ≠ true.
Proof. split; [simpl; lia | vm_compute; discriminate]. Qed.

(** C9: [getTileID] returns the index of the "World" tile when there is one,
    otherwise the index of the "Below Player" tile; where neither layer has a
    tile, which includes every cell outside the map's bounds, it throws; and
    the grid-building loop of [create] completes exactly when every cell of
    the map has a tile on at least one of the two layers. *)
Theorem getTileID_fallback_or_throw (m : Tilemap) :
  (∀ x y t, getTileAt m x y "World" = Some t → getTileID m x y = Ok (index t)) ∧
  (∀ x y t, getTileAt m x y "World" = None →
            getTileAt m x y "Below Player" = Some t →
            getTileID m x y = Ok (index t)) ∧
  (∀ x y, getTileAt m x y "World" = None →
          getTileAt m x y "Below Player" = None →
          getTileID m x y = Throw TypeError) ∧
  (∀ x y, ¬ (0 ≤ x < width m ∧ 0 ≤ y < height m) →
          getTileID m x y = Throw TypeError) ∧
  ((∃ g, buildGrid m = Ok g) ↔
   ∀ x y, 0 ≤ x < width m → 0 ≤ y < height m →
          is_Some (getTileAt m x y "World") ∨
          is_Some (getTileAt m x y "Below Player")).
Proof.
  split; [|split; [|split; [|split]]].
  - intros x y t H. unfold getTileID. by rewrite H.
  - intros x y t H1 H2. unfold getTileID. by rewrite H1, H2.
  - intros x y H1 H2. unfold getTileID. by rewrite H1, H2.
  - intros x y H. unfold getTileID. by rewrite !getTileAt_outside.
  - split.
    + intros [g Hg] x y Hx Hy.
      destruct (buildGrid_covered m g x y Hg Hx Hy) as (_ & t & _ & _ & Ht).
      unfold tileOf in Ht.
      destruct (getTileAt m x y "World"); [left; eauto | right; eauto].
    + intros H. apply buildGrid_total. intros x y Hx Hy. unfold tileOf.
      destruct (H x y Hx Hy) as [[t Ht]|[t Ht]]; rewrite Ht; [eauto|].
      destruct (getTileAt m x y "World"); eauto.
Qed.

Lemma getTileID_fallback_or_throw_witness :
  getTileID Sample.holed 1 1 = Ok 4 ∧
  getTileID Sample.holed 0 0 = Ok 1 ∧
  getTileID Sample.holed 2 1 = Throw TypeError ∧
  getTileID Sample.holed 3 0 = Throw TypeError.
Proof.
  destruct (getTileID_fallback_or_throw Sample.holed)
    as (Hw & Hb & Hn & Ho & _).
  split; [exact (Hw 1 1 Sample.sand eq_refl)|].
  split; [exact (Hb 0 0 Sample.grass eq_refl eq_refl)|].
  split; [exact (Hn 2 1 eq_refl eq_refl)|].
  apply Ho. simpl. lia.
Defined.

(** C6, as the code has it: on a marker cell outside the map's bounds
    [changeTile] changes nothing and throws; on a cell inside it returns, a
    second call leaves the state as the first call left it (only the
    console grows by the logged line), and the call makes exactly that cell non-walkable for the
    pathfinder: every other cell is as walkable as before. *)
Theorem changeTile_marks_cell (g : Game) (l : LayerData) :
  layers (map g) !! "World" = Some l →
  (¬ (0 ≤ (markerCell g).1 < width (map g) ∧
      0 ≤ (markerCell g).2 < height (map g)) →
   changeTile g = Raised TypeError g) ∧
  ((0 ≤ (markerCell g).1 < width (map g) ∧
    0 ≤ (markerCell g).2 < height (map g)) →
   ∃ g1 g2,
     changeTile g = Returned tt g1 ∧
     changeTile g1 = Returned tt g2 ∧
     sameButConsole g2 g1 ∧
     pointsToAvoid (finder g1) = {[ markerCell g ]} ∪ pointsToAvoid (finder g) ∧
     isWalkable (finder g1) (markerCell g) = false ∧
     ∀ c, c ≠ markerCell g →
          isWalkable (finder g1) c = isWalkable (finder g) c).
Proof.
  intros Hl. split.
  - intros Hout. apply (changeTile_outside g l Hl).
    destruct (IsInLayerBounds _ _ _) eqn:E; [|done].
    apply IsInLayerBounds_spec in E. tauto.
  - intros Hin. apply IsInLayerBounds_spec in Hin.
    pose proof (changeTile_inside g l Hl Hin) as H1.
    destruct (changeTile_twice g l _ Hl H1) as (g2 & H2 & Hsame).
    eexists _, g2. split; [exact H1|]. split; [exact H2|].
    split; [exact Hsame|]. cbn [finder].
    split; [cbn [avoidAdditionalPoint pointsToAvoid];
            by rewrite <- surjective_pairing|].
    split.
    + rewrite isWalkable_avoid_cell.
      rewrite (bool_decide_eq_false_2 (markerCell g ≠ markerCell g)) by tauto.
      apply andb_false_r.
    + intros c Hc. rewrite isWalkable_avoid_cell.
      rewrite bool_decide_eq_true_2 by done. apply andb_true_r.
Qed.

Lemma changeTile_marks_cell_witness :
  isWalkable (finder (Sample.game (64, 0))) (2, 0) = true ∧
  ∃ g1, changeTile (Sample.game (64, 0)) = Returned tt g1 ∧
        isWalkable (finder g1) (2, 0) = false.
Proof.
  split; [reflexivity|].
  destruct (changeTile_marks_cell (Sample.game (64, 0)) Sample.world eq_refl)
    as [_ H].
  destruct H as (g1 & g2 & H1 & _ & _ & _ & Hw & _);
    [change (0 ≤ 2 < 3 ∧ 0 ≤ 0 < 2); lia|].
  exists g1. split; [exact H1 | exact Hw].
Defined.

(** C6 as written fails on a cell outside the map: with the marker at
    world position (640, 0), tile cell (20, 0) of the 3 x 2 sample map,
    [changeTile] throws. *)
Lemma changeTile_outside_throws :
  ¬ (0 ≤ (markerCell (Sample.game (640, 0))).1 < width Sample.town) ∧
  changeTile (Sample.game (640, 0)) = Raised TypeError (Sample.game (640, 0)).
Proof.
  split; [vm_compute; intros [_ H]; discriminate|].
  apply (changeTile_outside _ Sample.world); reflexivity.
Qed.

(** C1: for every state of the game and every click whose start and goal
    cell are joined by a walkable route of the pathfinder's grid (so that both
    are inside the grid and walkable), the path search of [handleClick] hands
    its callback a path: the path starts at the start cell, ends at the goal
    cell, and any two consecutive cells of it are 4-directionally adjacent
    and walkable. The callback logs that path and moves the character
    along it. *)
Theorem requestPath_delivers_route (pointer : Z * Z) (g : Game)
    (q : list Cell) :
  route (finder g) (clickCells pointer g).1 (clickCells pointer g).2 q →
  ∃ p,
    findPath (finder g) (clickCells pointer g).1 (clickCells pointer g).2
    = Some p ∧
    requestPath findPath pointer g =
      Returned tt
        (add_timeline (tweenTo (map g) <$> tail p)
           (add_console LogMoveCharacter
              (add_console (LogPath p) (announced pointer g)))) ∧
    head p = Some (clickCells pointer g).1 ∧
    last p = Some (clickCells pointer g).2 ∧
    ∀ i a b, p !! i = Some a → p !! S i = Some b →
             b ∈ neighbours a ∧
             isWalkable (finder g) a = true ∧ isWalkable (finder g) b = true.
Proof.
  intros Hq. destruct (findPath_complete _ _ _ _ Hq) as [p Hp].
  exists p. split; [exact Hp|].
  split; [by rewrite requestPath_spec, Hp|].
  apply findPath_sound in Hp as (Hh & Hl & Hw & Hk).
  split; [exact Hh|]. split; [exact Hl|].
  intros i a b Ha Hb. rewrite Forall_forall in Hw.
  split; [by eapply linked_lookup|].
  split; apply Hw; by eapply list_elem_of_lookup_2.
Qed.

Lemma requestPath_delivers_route_witness :
  routeb (finder (Sample.game (64, 0))) (0, 0) (2, 0)
         [(0, 0); (0, 1); (1, 1); (2, 1); (2, 0)] = true ∧
  ∃ p, findPath (finder (Sample.game (64, 0))) (0, 0) (2, 0) = Some p ∧
       head p = Some (0, 0) ∧ last p = Some (2, 0).
Proof.
  split; [vm_compute; reflexivity|].
  destruct (requestPath_delivers_route (70, 10) (Sample.game (64, 0))
              [(0, 0); (0, 1); (1, 1); (2, 1); (2, 0)])
    as (p & Hp & _ & Hh & Hl & _).
  - apply routeb_spec. vm_compute. reflexivity.
  - exists p. split; [exact Hp|]. split; [exact Hh | exact Hl].
Defined.

(** C8: for every click whose start and goal cell are not joined by a
    walkable route, the path search hands the callback [null]; the path
    request throws nothing and only logs the warning; no movement is
    started: [moveCharacter] is not called, and neither the path request
    nor the rest of the handler starts a timeline. *)
Theorem requestPath_not_found (pointer : Z * Z) (g : Game) :
  (∀ q, ¬ route (finder g) (clickCells pointer g).1 (clickCells pointer g).2 q) →
  findPath (finder g) (clickCells pointer g).1 (clickCells pointer g).2 = None ∧
  requestPath findPath pointer g =
    Returned tt (add_console WarnPathNotFound (announced pointer g)) ∧
  console (add_console WarnPathNotFound (announced pointer g)) =
    console g ++ [LogHandleClick;
                  LogGoing (clickCells pointer g).1 (clickCells pointer g).2;
                  WarnPathNotFound] ∧
  timelines (add_console WarnPathNotFound (announced pointer g)) = timelines g ∧
  timelines (stateOf (handleClick findPath pointer g)) = timelines g.
Proof.
  intros Hno.
  assert (Hp : findPath (finder g) (clickCells pointer g).1
                        (clickCells pointer g).2 = None).
  { destruct (findPath _ _ _) as [p|] eqn:Hp; [|done].
    apply findPath_sound in Hp. by apply Hno in Hp. }
  assert (Hr : requestPath findPath pointer g =
               Returned tt (add_console WarnPathNotFound (announced pointer g)))
    by (by rewrite requestPath_spec, Hp).
  split; [exact Hp|]. split; [exact Hr|].
  split; [simpl; by rewrite <- !app_assoc|]. split; [done|].
  unfold handleClick, bind. rewrite Hr. by rewrite changeTile_timelines.
Qed.

(** In the sample game whose cell (1, 1) was turned into an obstacle,
    no route joins (0, 0) and (2, 0), and the request logs the warning. *)
Lemma requestPath_not_found_witness :
  (∀ q, ¬ route (finder (Sample.cutGame (64, 0))) (0, 0) (2, 0) q) ∧
  requestPath findPath (70, 10) (Sample.cutGame (64, 0)) =
    Returned tt (add_console WarnPathNotFound
                   (announced (70, 10) (Sample.cutGame (64, 0)))).
Proof.
  assert (Hno : ∀ q, ¬ route (finder (Sample.cutGame (64, 0))) (0, 0) (2, 0) q).
  { intros q Hq. destruct (findPath_complete _ _ _ _ Hq) as [p Hp].
    vm_compute in Hp. discriminate. }
  split; [exact Hno|].
  exact (proj1 (proj2 (requestPath_not_found (70, 10) (Sample.cutGame (64, 0)) Hno))).
Defined.

(** C7, as the code has it: for every click whose start or goal cell is not
    walkable, the callback is handed [null] and logs the warning; [null]
    carries no reason, and it is the value the callback is handed for any
    request that no route joins. *)
Theorem requestPath_invalid_endpoint (pointer : Z * Z) (g : Game) :
  isWalkable (finder g) (clickCells pointer g).1 = false ∨
  isWalkable (finder g) (clickCells pointer g).2 = false →
  findPath (finder g) (clickCells pointer g).1 (clickCells pointer g).2 = None ∧
  requestPath findPath pointer g =
    Returned tt (add_console WarnPathNotFound (announced pointer g)) ∧
  ∀ e s t, (∀ q, ¬ route e s t q) →
           findPath e s t
           = findPath (finder g) (clickCells pointer g).1 (clickCells pointer g).2.
Proof.
  intros Hbad.
  assert (Hp : findPath (finder g) (clickCells pointer g).1
                        (clickCells pointer g).2 = None).
  { unfold findPath. destruct Hbad as [-> | ->]; [done|]. by rewrite andb_false_r. }
  split; [exact Hp|]. split; [by rewrite requestPath_spec, Hp|].
  intros e s t Hno. rewrite Hp.
  destruct (findPath e s t) as [p|] eqn:E; [|done].
  apply findPath_sound in E. by apply Hno in E.
Qed.

Lemma requestPath_invalid_endpoint_witness :
  isWalkable (finder (Sample.game (64, 0))) (1, 0) = false ∧
  requestPath findPath (40, 10) (Sample.game (64, 0)) =
    Returned tt (add_console WarnPathNotFound
                   (announced (40, 10) (Sample.game (64, 0)))).
Proof.
  split; [reflexivity|].
  exact (proj1 (proj2 (requestPath_invalid_endpoint (40, 10)
                         (Sample.game (64, 0)) (or_intror eq_refl)))).
Defined.

(** C7 as written fails: in the sample game with the obstacle at (1, 1), the
    request to the wall (1, 0), a goal that is not walkable, and the request
    to (2, 0), a walkable goal that no route reaches, hand the callback the
    same value, and the callback does the same with it. *)
Lemma invalid_endpoint_not_distinguished :
  isWalkable (finder (Sample.cutGame (64, 0))) (1, 0) = false ∧
  isWalkable (finder (Sample.cutGame (64, 0))) (0, 0) = true ∧
  isWalkable (finder (Sample.cutGame (64, 0))) (2, 0) = true ∧
  findPath (finder (Sample.cutGame (64, 0))) (0, 0) (1, 0)
  = findPath (finder (Sample.cutGame (64, 0))) (0, 0) (2, 0) ∧
  onPath (findPath (finder (Sample.cutGame (64, 0))) (0, 0) (1, 0))
  = onPath (findPath (finder (Sample.cutGame (64, 0))) (0, 0) (2, 0)).
Proof. repeat split; vm_compute; reflexivity. Qed.

(** C10, as the code has it: every invocation of [handleClick], whatever the
    path search hands to the callback, a path or [null], goes on to call
    [changeTile]. When the marker cell lies inside the map, the handler
    returns with tile index 2 at the marker cell of the "World" layer,
    collision enabled on it, and the cell added to the points the
    pathfinder avoids; when the marker cell lies outside, [changeTile]
    throws and the grid is as the path request left it. *)
Theorem handleClick_always_changeTile
    (search : EasyStar -> Cell -> Cell -> option (list Cell))
    (pointer : Z * Z) (g : Game) (l : LayerData) :
  layers (map g) !! "World" = Some l →
  ∃ g',
    requestPath search pointer g = Returned tt g' ∧
    handleClick search pointer g = changeTile g' ∧
    map g' = map g ∧ finder g' = finder g ∧ markerCell g' = markerCell g ∧
    ((0 ≤ (markerCell g).1 < width (map g) ∧
      0 ≤ (markerCell g).2 < height (map g)) →
     ∃ g'' t,
       handleClick search pointer g = Returned tt g'' ∧
       getTileAt (map g'') (markerCell g).1 (markerCell g).2 "World" = Some t ∧
       index t = 2 ∧ collision t = true ∧
       pointsToAvoid (finder g'') = {[ markerCell g ]} ∪ pointsToAvoid (finder g)) ∧
    (¬ (0 ≤ (markerCell g).1 < width (map g) ∧
        0 ≤ (markerCell g).2 < height (map g)) →
     handleClick search pointer g = Raised TypeError g').
Proof.
  intros Hl.
  destruct (handleClick_changeTile search pointer g) as (g' & Hr & Hh).
  destruct (requestPath_frame search pointer g)
    as (g0 & Hr0 & Hm & Hf & Hk & _).
  rewrite Hr in Hr0. injection Hr0 as <-.
  pose proof (requestPath_markerCell search pointer g g' Hr) as Hc.
  assert (Hl' : layers (map g') !! "World" = Some l) by (by rewrite Hm).
  exists g'. split; [exact Hr|]. split; [exact Hh|]. split; [exact Hm|].
  split; [exact Hf|]. split; [exact Hc|]. split.
  - intros Hin. apply IsInLayerBounds_spec in Hin.
    assert (Hin' : IsInLayerBounds (map g') (markerCell g').1 (markerCell g').2
                   = true) by (by rewrite Hc, Hm).
    rewrite Hh, (changeTile_inside g' l Hl' Hin'). eexists _, _.
    split; [reflexivity|]. cbn [map finder]. rewrite Hc, Hm.
    split; [by apply getTileAt_placed|]. split; [done|]. split; [done|].
    unfold avoidAdditionalPoint. cbn [pointsToAvoid].
    by rewrite <- surjective_pairing, Hf.
  - intros Hout. rewrite Hh. apply (changeTile_outside g' l Hl').
    rewrite Hc, Hm. destruct (IsInLayerBounds _ _ _) eqn:E; [|done].
    apply IsInLayerBounds_spec in E. tauto.
Qed.

(** In the sample game with the obstacle at (1, 1), the click on (2, 0) finds
    no path, and the handler still turns the marker cell (2, 0) into an
    obstacle. *)
Lemma handleClick_always_changeTile_witness :
  findPath (finder (Sample.cutGame (64, 0))) (0, 0) (2, 0) = None ∧
  ∃ g'' t,
    handleClick findPath (70, 10) (Sample.cutGame (64, 0)) = Returned tt g'' ∧
    getTileAt (map g'') 2 0 "World" = Some t ∧ index t = 2 ∧
    collision t = true ∧ (2, 0) ∈ pointsToAvoid (finder g'').
Proof.
  split; [vm_compute; reflexivity|].
  destruct (handleClick_always_changeTile findPath (70, 10)
              (Sample.cutGame (64, 0)) Sample.world eq_refl)
    as (g' & _ & _ & _ & _ & _ & Hin & _).
  destruct Hin as (g'' & t & Hh & Ht & Hi & Hc & Hp);
    [change (0 ≤ 2 < 3 ∧ 0 ≤ 0 < 2); lia|].
  exists g'', t. split; [exact Hh|]. split; [exact Ht|]. split; [exact Hi|].
  split; [exact Hc|]. rewrite Hp. apply elem_of_union. left.
  by apply elem_of_singleton.
Defined.

(** C10 as written fails when the marker lies outside the map: with the
    marker at world position (640, 0), tile cell (20, 0) of the 3 x 2 sample
    map, the handler throws in [changeTile]; no tile is placed and the
    pathfinder avoids no additional point. *)
Lemma handleClick_marker_outside :
  markerCell (Sample.game (640, 0)) = (20, 0) ∧
  handleClick findPath (70, 10) (Sample.game (640, 0))
  = Raised TypeError
      (stateOf (handleClick findPath (70, 10) (Sample.game (640, 0)))) ∧
  getTileAt (map (stateOf (handleClick findPath (70, 10)
                             (Sample.game (640, 0))))) 20 0 "World" = None ∧
  (20, 0) ∉ pointsToAvoid
              (finder (stateOf (handleClick findPath (70, 10)
                                  (Sample.game (640, 0))))).
Proof.
  split; [reflexivity|]. split; [vm_compute; reflexivity|].
  split; [reflexivity|].
  apply (bool_decide_eq_false_1 _). vm_compute. reflexivity.
Qed.

(** * Further properties *)

(** ** The marker that follows the pointer *)

Lemma updateMarker_spec worldPoint g :
  updateMarker worldPoint g =
  Returned
    (negb (checkCollision (map g) (worldToTileX (map g) worldPoint.1)
                          (worldToTileY (map g) worldPoint.2)))
    (set_marker (tileToWorldX (map g) (worldToTileX (map g) worldPoint.1),
                 tileToWorldY (map g) (worldToTileY (map g) worldPoint.2)) g).
Proof. reflexivity. Qed.

(** X1: with tiles of positive size, [update] puts the marker on the
    top-left corner of the tile under the pointer: the pointer lies within
    one tile to the right of and below the marker, and the marker's
    coordinates are multiples of the tile size. *)
Theorem update_marker_snaps_to_tile
    (normalize : Q * Q -> Q * Q) (c : Cursors) (worldPoint : Z * Z)
    (p : Sprite) (g : Game) :
  0 < tileWidth (map g) → 0 < tileHeight (map g) →
  ∃ p' visible g',
    update normalize c worldPoint p g = Returned (p', visible) g' ∧
    (marker g').1 ≤ worldPoint.1 < (marker g').1 + tileWidth (map g) ∧
    (marker g').2 ≤ worldPoint.2 < (marker g').2 + tileHeight (map g) ∧
    (marker g').1 mod tileWidth (map g) = 0 ∧
    (marker g').2 mod tileHeight (map g) = 0.
Proof.
  intros Hw Hh. eexists _, _, _. split; [reflexivity|]. simpl.
  unfold tileToWorldX, tileToWorldY, worldToTileX, worldToTileY.
  pose proof (Z.mul_div_le worldPoint.1 _ Hw).
  pose proof (Z.mul_succ_div_gt worldPoint.1 _ Hw).
  pose proof (Z.mul_div_le worldPoint.2 _ Hh).
  pose proof (Z.mul_succ_div_gt worldPoint.2 _ Hh).
  rewrite !Z.mod_mul by lia. split; [lia|]. split; [lia|]. done.
Qed.

Lemma update_marker_snaps_to_tile_witness :
  0 < tileWidth (map (Sample.game (0, 0))) ∧
  ∃ p' visible g',
    update (fun v => v) {| leftDown := false; rightDown := false;
                           upDown := false; downDown := false |}
           (70, 45) {| velocity := (0 # 1, 0 # 1); anim := None;
                       frame := "misa-front" |}
           (Sample.game (0, 0)) = Returned (p', visible) g' ∧
    (marker g').1 ≤ 70 < (marker g').1 + 32.
Proof.
  split; [simpl; lia|].
  destruct (update_marker_snaps_to_tile (fun v => v)
              {| leftDown := false; rightDown := false;
                 upDown := false; downDown := false |}
              (70, 45) {| velocity := (0 # 1, 0 # 1); anim := None;
                          frame := "misa-front" |}
              (Sample.game (0, 0)))
    as (p' & visible & g' & Hu & Hx & _); [simpl; lia | simpl; lia|].
  exists p', visible, g'. split; [exact Hu | exact Hx].
Defined.

(** X2: with tiles of non-zero size, the cell under the marker that [update]
    leaves is the tile under the pointer, which is the cell [changeTile] acts
    on afterwards; [update] changes nothing else of the game. *)
Theorem update_marker_cell_is_pointer_tile
    (normalize : Q * Q -> Q * Q) (c : Cursors) (worldPoint : Z * Z)
    (p : Sprite) (g : Game) :
  tileWidth (map g) ≠ 0 → tileHeight (map g) ≠ 0 →
  ∃ p' visible g',
    update normalize c worldPoint p g = Returned (p', visible) g' ∧
    markerCell g' = (worldToTileX (map g) worldPoint.1,
                     worldToTileY (map g) worldPoint.2) ∧
    map g' = map g ∧ finder g' = finder g ∧ player g' = player g ∧
    camera g' = camera g ∧ timelines g' = timelines g ∧
    console g' = console g.
Proof.
  intros Hw Hh. eexists _, _, _. split; [reflexivity|].
  split; [|done]. unfold markerCell. simpl.
  unfold tileToWorldX, tileToWorldY, worldToTileX, worldToTileY.
  by rewrite !Z.div_mul.
Qed.

Lemma update_marker_cell_is_pointer_tile_witness :
  tileWidth (map (Sample.game (0, 0))) ≠ 0 ∧
  ∃ p' visible g',
    update (fun v => v) {| leftDown := false; rightDown := false;
                           upDown := false; downDown := false |}
           (70, 45) {| velocity := (0 # 1, 0 # 1); anim := None;
                       frame := "misa-front" |}
           (Sample.game (0, 0)) = Returned (p', visible) g' ∧
    markerCell g' = (2, 1).
Proof.
  split; [simpl; lia|].
  destruct (update_marker_cell_is_pointer_tile (fun v => v)
              {| leftDown := false; rightDown := false;
                 upDown := false; downDown := false |}
              (70, 45) {| velocity := (0 # 1, 0 # 1); anim := None;
                          frame := "misa-front" |}
              (Sample.game (0, 0)))
    as (p' & visible & g' & Hu & Hc & _); [simpl; lia | simpl; lia|].
  exists p', visible, g'. split; [exact Hu | exact Hc].
Defined.

(** X3: [update] hides the marker exactly when the tile under the pointer
    has a "World" tile whose [collides] property is true; such a tile lies
    inside the map, so the marker is shown wherever the pointer is outside
    the map or over a cell without a "World" tile. *)
Theorem update_marker_hidden_iff
    (normalize : Q * Q -> Q * Q) (c : Cursors) (worldPoint : Z * Z)
    (p : Sprite) (g : Game) :
  ∃ p' visible g',
    update normalize c worldPoint p g = Returned (p', visible) g' ∧
    (visible = false ↔
     ∃ t, getTileAt (map g) (worldToTileX (map g) worldPoint.1)
                    (worldToTileY (map g) worldPoint.2) "World" = Some t ∧
          collides (properties t) = Some true) ∧
    (visible = false →
     0 ≤ worldToTileX (map g) worldPoint.1 < width (map g) ∧
     0 ≤ worldToTileY (map g) worldPoint.2 < height (map g)).
Proof.
  eexists _, _, _. split; [reflexivity|].
  set (tx := worldToTileX (map g) worldPoint.1).
  set (ty := worldToTileY (map g) worldPoint.2).
  assert (Hiff : negb (checkCollision (map g) tx ty) = false ↔
                 ∃ t, getTileAt (map g) tx ty "World" = Some t ∧
                      collides (properties t) = Some true).
  { rewrite negb_false_iff. unfold checkCollision.
    destruct (getTileAt (map g) tx ty "World") as [t|].
    - rewrite bool_decide_eq_true. split; [eauto|].
      by intros (t' & [= <-] & ?).
    - split; [done | by intros (? & ? & _)]. }
  split; [exact Hiff|]. intros Hv. apply Hiff in Hv as (t & Ht & _).
  destruct (decide (0 ≤ tx < width (map g) ∧ 0 ≤ ty < height (map g)))
    as [?|Hout]; [done|].
  by rewrite getTileAt_outside in Ht.
Qed.

(** ** The player's velocity, animation and idle frame *)

(** X4: the animation that [update] plays agrees with the velocity it sets
    from the keys: the walk to the left plays exactly when the horizontal
    velocity is negative, the walk to the right exactly when it is positive,
    the walks up and down exactly when the horizontal velocity is zero and
    the vertical one is negative or positive, and the animation stops exactly
    when the velocity is zero. *)
Theorem update_animation_follows_velocity
    (normalize : Q * Q -> Q * Q) (c : Cursors) (worldPoint : Z * Z)
    (p : Sprite) (g : Game) :
  ∃ p' visible g',
    update normalize c worldPoint p g = Returned (p', visible) g' ∧
    velocity p' = scale (normalize (steer c)) speed ∧
    (anim p' = Some "misa-left-walk" ↔ ((steer c).1 < 0)%Q) ∧
    (anim p' = Some "misa-right-walk" ↔ (0 < (steer c).1)%Q) ∧
    (anim p' = Some "misa-back-walk" ↔
     ((steer c).1 == 0)%Q ∧ ((steer c).2 < 0)%Q) ∧
    (anim p' = Some "misa-front-walk" ↔
     ((steer c).1 == 0)%Q ∧ (0 < (steer c).2)%Q) ∧
    (anim p' = None ↔ ((steer c).1 == 0)%Q ∧ ((steer c).2 == 0)%Q).
Proof.
  eexists _, _, _. split; [reflexivity|].
  split; [unfold updatePlayer; by repeat case_match|].
  destruct c as [[] [] [] []]; cbn; unfold Qlt, Qeq; cbn;
    repeat split; intros; try discriminate; try lia;
    repeat match goal with H : _ ∧ _ |- _ => destruct H end;
    try discriminate; try lia.
Qed.

Lemma idleFrame_cases (v : Q * Q) (former : string) :
  ((v.1 < 0)%Q → idleFrame v former = "misa-left") ∧
  ((0 < v.1)%Q → idleFrame v former = "misa-right") ∧
  ((v.1 == 0)%Q → (v.2 < 0)%Q → idleFrame v former = "misa-back") ∧
  ((v.1 == 0)%Q → (0 < v.2)%Q → idleFrame v former = "misa-front") ∧
  ((v.1 == 0)%Q → (v.2 == 0)%Q → idleFrame v former = former).
Proof.
  unfold idleFrame.
  destruct (Qlt_le_dec v.1 (0 # 1)) as [H1|H1];
    destruct (Qlt_le_dec (0 # 1) v.1) as [H2|H2];
    destruct (Qlt_le_dec v.2 (0 # 1)) as [H3|H3];
    destruct (Qlt_le_dec (0 # 1) v.2) as [H4|H4];
    unfold Qlt, Qle, Qeq in *; simpl in *;
    repeat split; intros; try done; lia.
Qed.

(** X5: while an arrow key is held, [update] leaves the sprite's frame as
    it was. With no key held it stops the animation and picks the idle frame
    from the velocity the body had: facing left or right if it moved
    horizontally, else facing up or down if it moved vertically, and the
    frame it had if it stood still. *)
Theorem update_idle_frame
    (normalize : Q * Q -> Q * Q) (c : Cursors) (worldPoint : Z * Z)
    (p : Sprite) (g : Game) :
  ∃ p' visible g',
    update normalize c worldPoint p g = Returned (p', visible) g' ∧
    (leftDown c || rightDown c || upDown c || downDown c = true →
     frame p' = frame p) ∧
    (leftDown c || rightDown c || upDown c || downDown c = false →
     anim p' = None ∧
     (((velocity p).1 < 0)%Q → frame p' = "misa-left") ∧
     ((0 < (velocity p).1)%Q → frame p' = "misa-right") ∧
     (((velocity p).1 == 0)%Q → ((velocity p).2 < 0)%Q →
      frame p' = "misa-back") ∧
     (((velocity p).1 == 0)%Q → (0 < (velocity p).2)%Q →
      frame p' = "misa-front") ∧
     (((velocity p).1 == 0)%Q → ((velocity p).2 == 0)%Q →
      frame p' = frame p)).
Proof.
  eexists _, _, _. split; [reflexivity|]. unfold updatePlayer.
  destruct c as [[] [] [] []]; cbn [leftDown rightDown upDown downDown orb];
    (split; [intros; done || discriminate|]); intros Hk; try discriminate.
  cbn [anim frame]. split; [done|]. apply idleFrame_cases.
Qed.

Lemma update_idle_frame_witness :
  ∃ p' visible g',
    update (fun v => v) {| leftDown := false; rightDown := false;
                           upDown := false; downDown := false |}
           (70, 45) {| velocity := (0 # 1, -175 # 1); anim := None;
                       frame := "misa-front" |}
           (Sample.game (0, 0)) = Returned (p', visible) g' ∧
    anim p' = None ∧ frame p' = "misa-back".
Proof.
  destruct (update_idle_frame (fun v => v)
              {| leftDown := false; rightDown := false;
                 upDown := false; downDown := false |}
              (70, 45) {| velocity := (0 # 1, -175 # 1); anim := None;
                          frame := "misa-front" |}
              (Sample.game (0, 0)))
    as (p' & visible & g' & Hu & _ & Hidle).
  destruct (Hidle eq_refl) as (Ha & _ & _ & Hb & _).
  exists p', visible, g'. split; [exact Hu|]. split; [exact Ha|].
  apply Hb; reflexivity.
Defined.

(** ** The pathfinder that create builds *)

Lemma forM_push_throws {A} (f : Z -> result A) n : ∀ i acc e,
  forM n i (push f) acc = Throw e →
  ∃ k, (k < n)%nat ∧ f (i + Z.of_nat k) = Throw e.
Proof.
  induction n as [|n IH]; intros i acc e H; simpl in H; [done|].
  unfold push at 1 in H. destruct (f i) as [v|e'] eqn:Hf; simpl in H.
  - apply IH in H as (k & Hk & Hfk). exists (S k). split; [lia|].
    rewrite <- Hfk. f_equal. lia.
  - exists 0%nat. split; [lia|]. rewrite Z.add_0_r. congruence.
Qed.

Lemma buildGrid_throws m e :
  buildGrid m = Throw e →
  ∃ x y, 0 ≤ x < width m ∧ 0 ≤ y < height m ∧ tileOf m x y = None.
Proof.
  intros H. apply (forM_push_throws (buildRow m)) in H as (ky & Hky & Hrow).
  apply (forM_push_throws (fun x => getTileID m x (0 + Z.of_nat ky))) in Hrow
    as (kx & Hkx & Hid).
  exists (0 + Z.of_nat kx), (0 + Z.of_nat ky).
  split; [lia|]. split; [lia|].
  rewrite getTileID_tileOf in Hid. by destruct (tileOf _ _ _).
Qed.

(** X6: the pathfinding part of [create] throws exactly when some cell of
    the map has no tile on "World" nor on "Below Player", or when the map has
    no tileset; otherwise it yields a pathfinder. *)
Theorem createFinder_throws_iff (m : Tilemap) (tileset : Tileset) :
  (createFinder m tileset = Throw TypeError ↔
   (∃ x y, 0 ≤ x < width m ∧ 0 ≤ y < height m ∧
           getTileAt m x y "World" = None ∧
           getTileAt m x y "Below Player" = None) ∨
   tilesets m = []) ∧
  (createFinder m tileset ≠ Throw TypeError →
   ∃ e, createFinder m tileset = Ok e).
Proof.
  assert (Hnone : ∀ x y, tileOf m x y = None ↔
            getTileAt m x y "World" = None ∧
            getTileAt m x y "Below Player" = None).
  { intros x y. unfold tileOf. destruct (getTileAt m x y "World"); [|tauto].
    split; [done | by intros [? _]]. }
  split; [split|].
  - unfold createFinder. destruct (buildGrid m) as [g|e] eqn:Hg; simpl.
    + destruct (tilesets m) as [|ts l] eqn:Hts; simpl; [by right | done].
    + intros _. left. destruct (buildGrid_throws m e Hg) as (x & y & ? & ? & Ht).
      exists x, y. apply Hnone in Ht. tauto.
  - intros [(x & y & Hx & Hy & Hw & Hb)|Hts]; unfold createFinder.
    + destruct (buildGrid m) as [g|[]] eqn:Hg; [|done].
      destruct (buildGrid_covered m g x y Hg Hx Hy) as (_ & t & _ & _ & Ht).
      assert (tileOf m x y = None) by (apply Hnone; tauto). congruence.
    + destruct (buildGrid m) as [g|[]]; simpl; [|done]. by rewrite Hts.
  - destruct (createFinder m tileset) as [e|[]]; [eauto | done].
Qed.

Lemma createFinder_throws_iff_witness :
  createFinder Sample.holed Sample.tiles = Throw TypeError ∧
  ∃ e, createFinder Sample.town Sample.tiles = Ok e.
Proof.
  split.
  - apply (proj1 (createFinder_throws_iff Sample.holed Sample.tiles)).
    left. exists 2, 1. repeat split; try reflexivity; discriminate.
  - apply (proj2 (createFinder_throws_iff Sample.town Sample.tiles)).
    vm_compute. discriminate.
Defined.

Lemma forEach_classify_sorted props n : ∀ lo acc fd,
  StronglySorted Z.lt acc → (∀ j, j ∈ acc → j ≤ lo) →
  StronglySorted Z.lt (forEach n lo (classifyTile props) (acc, fd)).1.
Proof.
  induction n as [|n IH]; intros lo acc fd Hs Hle; cbn [forEach]; [done|].
  rewrite classifyTile_spec. apply IH.
  - destruct (accepts props lo); [|done].
    apply StronglySorted_app_2; [|done|repeat constructor].
    intros x1 x2 H1 H2. apply list_elem_of_singleton in H2. subst.
    apply Hle in H1. lia.
  - intros j Hj. destruct (accepts props lo).
    + apply elem_of_app in Hj as [Hj|Hj]; [apply Hle in Hj; lia|].
      apply list_elem_of_singleton in Hj. lia.
    + apply Hle in Hj. lia.
Qed.

(** X7: the list of acceptable tiles that the loop of [create] builds is
    strictly increasing, so no gid is listed twice, and it lists only gids
    of the loop's range, from [tileset2.firstgid] to [tileset.total]. *)
Theorem classifyTiles_acceptable_sorted (tileset tileset2 : Tileset)
    (fd : EasyStar) :
  StronglySorted Z.lt (acceptableTiles (classifyTiles tileset tileset2 fd)) ∧
  NoDup (acceptableTiles (classifyTiles tileset tileset2 fd)) ∧
  ∀ j, j ∈ acceptableTiles (classifyTiles tileset tileset2 fd) →
       firstgid tileset2 ≤ j ≤ total tileset.
Proof.
  pose proof (forEach_classify_sorted (tileProperties tileset2)
                (Z.to_nat (total tileset - (firstgid tileset2 - 1)))
                (firstgid tileset2 - 1) [] fd) as Hs.
  destruct (forEach_classify (tileProperties tileset2)
              (Z.to_nat (total tileset - (firstgid tileset2 - 1)))
              (firstgid tileset2 - 1) [] fd)
    as (acc' & fd' & Heq & Hacc & _).
  unfold classifyTiles. rewrite Heq in *. simpl in *.
  assert (Hsorted : StronglySorted Z.lt acc').
  { apply Hs; [constructor|]. intros j Hj. by apply elem_of_nil in Hj. }
  split; [exact Hsorted|]. split.
  - clear -Hsorted. induction Hsorted as [|a l Hl IH Ha]; constructor; [|done].
    intros Hin. rewrite Forall_forall in Ha. apply Ha in Hin. lia.
  - intros j Hj. apply Hacc in Hj as [Hj|[Hj _]]; [by apply elem_of_nil in Hj|].
    lia.
Qed.

(** X8: the loop of [create] touches nothing outside its range: for a gid
    below [tileset2.firstgid] or above [tileset.total] the registered cost is
    what it was, and the pathfinder's grid and points to avoid are what they
    were; with an empty range the list of acceptable tiles is empty. *)
Theorem classifyTiles_outside_range (tileset tileset2 : Tileset)
    (fd : EasyStar) :
  (∀ j, ¬ (firstgid tileset2 ≤ j ≤ total tileset) →
        costMap (classifyTiles tileset tileset2 fd) !! j = costMap fd !! j) ∧
  grid (classifyTiles tileset tileset2 fd) = grid fd ∧
  pointsToAvoid (classifyTiles tileset tileset2 fd) = pointsToAvoid fd ∧
  (total tileset < firstgid tileset2 →
   acceptableTiles (classifyTiles tileset tileset2 fd) = []).
Proof.
  destruct (forEach_classify (tileProperties tileset2)
              (Z.to_nat (total tileset - (firstgid tileset2 - 1)))
              (firstgid tileset2 - 1) [] fd)
    as (acc' & fd' & Heq & Hacc & Hcost & Hgrid & Havoid).
  unfold classifyTiles. rewrite Heq. simpl.
  split; [|split; [done|split; [done|]]].
  - intros j Hj. rewrite Hcost. apply decide_False. intros [? _]. lia.
  - intros Hempty. destruct acc' as [|j acc']; [done|].
    assert (Hj : j ∈ j :: acc') by (by left).
    apply Hacc in Hj as [Hj|[Hj _]]; [by apply elem_of_nil in Hj | lia].
Qed.

Lemma classifyTiles_outside_range_witness :
  costMap (classifyTiles Sample.tiles Sample.tiles
             (setTileCost 9 7 newEasyStar)) !! 9 = Some 7.
Proof.
  destruct (classifyTiles_outside_range Sample.tiles Sample.tiles
              (setTileCost 9 7 newEasyStar)) as [H _].
  rewrite H; [reflexivity | simpl; lia].
Defined.

Lemma createFinder_Ok m tileset e :
  createFinder m tileset = Ok e →
  ∃ g tileset2, buildGrid m = Ok g ∧ tilesets m !! 0%nat = Some tileset2 ∧
                e = classifyTiles tileset tileset2 (setGrid g newEasyStar).
Proof.
  unfold createFinder. destruct (buildGrid m) as [g|]; simpl; [|done].
  destruct (tilesets m !! 0%nat) as [tileset2|]; [|done].
  intros [= <-]. eauto.
Qed.

(** X9: the pathfinder that [create] builds avoids no additional point, and
    its grid answers exactly for the cells of the map: inside the map's
    bounds it holds the tile ID that [getTileID] reads there, and outside
    them it holds nothing. *)
Theorem createFinder_grid_lookup (m : Tilemap) (tileset : Tileset)
    (e : EasyStar) :
  createFinder m tileset = Ok e →
  pointsToAvoid e = ∅ ∧
  ∀ x y, tileAt e (x, y) =
         if IsInLayerBounds m x y
         then match getTileID m x y with
              | Ok id => Some id
              | Throw _ => None
              end
         else None.
Proof.
  intros He. destruct (createFinder_Ok m tileset e He) as (g & ts2 & Hg & _ & ->).
  destruct (classifyTiles_spec tileset ts2 (setGrid g newEasyStar))
    as (_ & Hgrid & Havoid).
  split; [by rewrite Havoid|]. intros x y. unfold tileAt. rewrite Hgrid.
  cbn [grid setGrid fst snd].
  destruct (IsInLayerBounds m x y) eqn:Hb.
  - apply IsInLayerBounds_spec in Hb as [Hx Hy].
    destruct (buildGrid_covered m g x y Hg Hx Hy) as (row & t & Hr & Hc & Ht).
    rewrite getTileID_tileOf, Ht, Hr, Hc.
    destruct (0 <=? x) eqn:E1; [|apply Z.leb_gt in E1; lia].
    destruct (0 <=? y) eqn:E2; [done | apply Z.leb_gt in E2; lia].
  - destruct (0 <=? x) eqn:E1; [|done]. destruct (0 <=? y) eqn:E2; [|done].
    apply Z.leb_le in E1, E2. simpl.
    destruct (g !! Z.to_nat y) as [row|] eqn:Hr; [|done].
    pose proof (lookup_lt_Some _ _ _ Hr) as Hylt.
    apply buildGrid_ok in Hg as Hlen. destruct Hlen as [Hlen _].
    assert (Hrow : length row = Z.to_nat (width m)).
    { eapply buildGrid_rows; [exact Hg|]. by eapply list_elem_of_lookup_2. }
    apply lookup_ge_None_2. rewrite Hrow.
    assert (¬ (0 ≤ x < width m ∧ 0 ≤ y < height m)) as Hout.
    { intros Hin. apply IsInLayerBounds_spec in Hin. congruence. }
    lia.
Qed.

Lemma createFinder_grid_lookup_witness :
  tileAt Sample.townFinder (1, 1) = Some 4 ∧
  tileAt Sample.townFinder (3, 0) = None.
Proof.
  destruct (createFinder_grid_lookup Sample.town Sample.tiles
              Sample.townFinder eq_refl) as [_ H].
  split; [exact (H 1 1) | exact (H 3 0)].
Defined.

(** ** Moving along a path *)

(** X10: [moveCharacter] never throws, whatever the path, the empty one
    included: it logs its call and starts exactly one timeline, with one
    tween less than the path has cells and none for a path of fewer than two
    cells, and it leaves the map, the pathfinder, the marker, the player and
    the camera alone. *)
Theorem moveCharacter_always_returns (path : list Cell) (g : Game) :
  ∃ tweens g',
    moveCharacter path g = Returned tt g' ∧
    timelines g' = timelines g ++ [tweens] ∧
    length tweens = Nat.pred (length path) ∧
    console g' = console g ++ [LogMoveCharacter] ∧
    map g' = map g ∧ finder g' = finder g ∧ marker g' = marker g ∧
    player g' = player g ∧ camera g' = camera g.
Proof.
  exists (tweenTo (map g) <$> tail path). eexists.
  split; [apply moveCharacter_spec|]. simpl. split; [done|].
  split; [|done]. rewrite length_fmap. by destruct path.
Qed.

(** X11: with tiles of non-zero size, the tweens of a path lead back to the
    path: converting the target of each tween to a tile cell gives the cells
    of the path after the first, in order. *)
Theorem pathTweens_trace_path (m : Tilemap) (path : list Cell) :
  tileWidth m ≠ 0 → tileHeight m ≠ 0 →
  ∃ tweens,
    pathTweens m path = Ok tweens ∧
    (fun t => (worldToTileX m (value (tween_x t)),
               worldToTileY m (value (tween_y t)))) <$> tweens
    = tail path.
Proof.
  intros Hw Hh. exists (tweenTo m <$> tail path).
  split; [apply pathTweens_tail|].
  rewrite <- list_fmap_compose. rewrite <- (list_fmap_id (tail path)) at 2.
  apply list_fmap_ext. intros _ [x y] _. simpl.
  unfold worldToTileX, worldToTileY. by rewrite !Z.div_mul.
Qed.

Lemma pathTweens_trace_path_witness :
  tileWidth Sample.town ≠ 0 ∧
  ∃ tweens,
    pathTweens Sample.town [(0, 0); (0, 1); (1, 1)] = Ok tweens ∧
    (fun t => (worldToTileX Sample.town (value (tween_x t)),
               worldToTileY Sample.town (value (tween_y t)))) <$> tweens
    = [(0, 1); (1, 1)].
Proof.
  split; [simpl; lia|].
  apply (pathTweens_trace_path Sample.town [(0, 0); (0, 1); (1, 1)]);
    simpl; lia.
Defined.

(** X12: with tiles of 32 by 32 pixels, a player that stands on the target
    of the last tween of a path is, for the next click, on the last cell of
    the path: the next path request starts where the last one led. *)
Theorem next_click_starts_at_goal (path : list Cell) (tweens : list Tween)
    (t : Tween) (pointer : Z * Z) (g : Game) :
  tileWidth (map g) = 32 → tileHeight (map g) = 32 →
  pathTweens (map g) path = Ok tweens →
  last tweens = Some t →
  player g = (value (tween_x t), value (tween_y t)) →
  Some (clickCells pointer g).1 = last path.
Proof.
  intros Hw Hh Hp Hl Hplayer. rewrite pathTweens_tail in Hp.
  injection Hp as <-. rewrite fmap_last in Hl.
  destruct (last (tail path)) as [[x y]|] eqn:Hlast; [|done].
  injection Hl as <-. unfold clickCells. rewrite Hplayer. simpl.
  rewrite Hw, Hh, !Z.div_mul by lia.
  destruct path as [|c0 path]; [done|]. simpl in Hlast.
  destruct path; [done|]. by rewrite last_cons, Hlast.
Qed.

Lemma next_click_starts_at_goal_witness :
  ∃ tweens t,
    pathTweens Sample.town [(0, 0); (0, 1); (1, 1)] = Ok tweens ∧
    last tweens = Some t ∧
    (clickCells (0, 0)
       {| map := Sample.town; finder := Sample.townFinder; marker := (0, 0);
          player := (value (tween_x t), value (tween_y t)); camera := (0, 0);
          timelines := []; console := [] |}).1 = (1, 1).
Proof.
  eexists _, _. split; [reflexivity|]. split; [reflexivity|].
  apply (inj Some).
  exact (next_click_starts_at_goal [(0, 0); (0, 1); (1, 1)] _ _ (0, 0)
           {| map := Sample.town; finder := Sample.townFinder;
              marker := (0, 0); player := (32, 32); camera := (0, 0);
              timelines := []; console := [] |}
           eq_refl eq_refl eq_refl eq_refl eq_refl).
Defined.

(** ** What a click changes *)

Lemma getTileAt_set_layer_other m l c x y layer :
  layer ≠ "World" ∨ (x, y) ≠ c →
  getTileAt (set_layer "World" (placedLayer l c) m) x y layer
  = getTileAt (set_layer "World" l m) x y layer.
Proof.
  intros Hne. unfold getTileAt. simpl.
  destruct (decide (layer = "World")) as [->|Hl].
  - rewrite !lookup_insert_eq, !IsInLayerBounds_set_layer.
    destruct (IsInLayerBounds m x y); [|done]. simpl.
    apply lookup_insert_ne. destruct Hne; congruence.
  - by rewrite !lookup_insert_ne.
Qed.

Lemma changeTile_cases g :
  (changeTile g = Raised TypeError g) ∨
  (∃ l, layers (map g) !! "World" = Some l ∧
        IsInLayerBounds (map g) (markerCell g).1 (markerCell g).2 = true ∧
        changeTile g =
        Returned tt
          {| map := set_layer "World" (placedLayer l (markerCell g)) (map g);
             finder := avoidAdditionalPoint (markerCell g).1 (markerCell g).2
                                            (finder g);
             marker := marker g; player := player g; camera := camera g;
             timelines := timelines g;
             console := console g ++
               [LogTileProperties (properties (placed l (markerCell g)))] |}).
Proof.
  destruct (layers (map g) !! "World") as [l|] eqn:Hl.
  - destruct (IsInLayerBounds (map g) (markerCell g).1 (markerCell g).2) eqn:Hb.
    + right. exists l. split; [done|]. split; [done|].
      by apply changeTile_inside.
    + left. by apply (changeTile_outside g l).
  - left. unfold changeTile, bind, get. by rewrite Hl.
Qed.

(** X13: whether it returns or throws, [changeTile] changes at most one
    tile: every tile of another layer and every "World" tile at a cell other
    than the marker cell is as before, and so are the map's dimensions, tile
    sizes and tilesets, the pathfinder's grid, acceptable tiles and costs,
    the marker, the player, the camera and the timelines. *)
Theorem changeTile_changes_one_tile (g : Game) :
  (∀ x y layer, layer ≠ "World" ∨ (x, y) ≠ markerCell g →
     getTileAt (map (stateOf (changeTile g))) x y layer
     = getTileAt (map g) x y layer) ∧
  width (map (stateOf (changeTile g))) = width (map g) ∧
  height (map (stateOf (changeTile g))) = height (map g) ∧
  tileWidth (map (stateOf (changeTile g))) = tileWidth (map g) ∧
  tileHeight (map (stateOf (changeTile g))) = tileHeight (map g) ∧
  tilesets (map (stateOf (changeTile g))) = tilesets (map g) ∧
  grid (finder (stateOf (changeTile g))) = grid (finder g) ∧
  acceptableTiles (finder (stateOf (changeTile g)))
  = acceptableTiles (finder g) ∧
  costMap (finder (stateOf (changeTile g))) = costMap (finder g) ∧
  marker (stateOf (changeTile g)) = marker g ∧
  player (stateOf (changeTile g)) = player g ∧
  camera (stateOf (changeTile g)) = camera g ∧
  timelines (stateOf (changeTile g)) = timelines g.
Proof.
  destruct (changeTile_cases g) as [->|(l & Hl & _ & ->)]; [done|].
  cbn [stateOf map finder marker player camera timelines].
  split; [|done]. intros x y layer Hne.
  rewrite getTileAt_set_layer_other by done.
  by rewrite (set_layer_id _ _ _ Hl).
Qed.

(** X14: a click never makes a cell walkable again. Whatever the search
    returns and whether the handler returns or throws, the points the
    pathfinder avoids after [handleClick] include those it avoided before,
    and its grid, acceptable tiles and costs are unchanged; so every cell
    that is walkable afterwards was walkable before. *)
Theorem handleClick_never_unblocks
    (search : EasyStar -> Cell -> Cell -> option (list Cell))
    (pointer : Z * Z) (g : Game) :
  pointsToAvoid (finder g)
    ⊆ pointsToAvoid (finder (stateOf (handleClick search pointer g))) ∧
  grid (finder (stateOf (handleClick search pointer g))) = grid (finder g) ∧
  acceptableTiles (finder (stateOf (handleClick search pointer g)))
  = acceptableTiles (finder g) ∧
  costMap (finder (stateOf (handleClick search pointer g)))
  = costMap (finder g) ∧
  ∀ c, isWalkable (finder (stateOf (handleClick search pointer g))) c = true →
       isWalkable (finder g) c = true.
Proof.
  destruct (handleClick_changeTile search pointer g) as (g' & Hr & ->).
  destruct (requestPath_frame search pointer g) as (g0 & Hr0 & _ & Hf & _).
  rewrite Hr in Hr0. injection Hr0 as <-. rewrite <- Hf.
  destruct (changeTile_cases g') as [->|(l & _ & _ & ->)];
    cbn [stateOf finder].
  - repeat split; done.
  - split; [|split; [done|split; [done|split; [done|]]]].
    + cbn [avoidAdditionalPoint pointsToAvoid]. apply union_subseteq_r.
    + intros c. rewrite isWalkable_avoid. by intros [? _]%andb_true_iff.
Qed.

(** X15: with tiles of 32 by 32 pixels, once [update] has put the marker
    under the pointer, whose world position is the camera's scroll plus the
    pointer's position, the marker cell is the goal cell of the click; so
    when that cell lies inside the map, [handleClick] turns the very cell it
    asks a path to into an obstacle. *)
Theorem handleClick_blocks_its_goal
    (search : EasyStar -> Cell -> Cell -> option (list Cell))
    (pointer : Z * Z) (g0 : Game) (l : LayerData) :
  layers (map g0) !! "World" = Some l →
  tileWidth (map g0) = 32 → tileHeight (map g0) = 32 →
  0 ≤ ((camera g0).1 + pointer.1) / 32 < width (map g0) →
  0 ≤ ((camera g0).2 + pointer.2) / 32 < height (map g0) →
  ∃ visible g,
    updateMarker ((camera g0).1 + pointer.1, (camera g0).2 + pointer.2) g0
    = Returned visible g ∧
    markerCell g = (clickCells pointer g).2 ∧
    ∃ g' t,
      handleClick search pointer g = Returned tt g' ∧
      (clickCells pointer g).2 ∈ pointsToAvoid (finder g') ∧
      getTileAt (map g') (clickCells pointer g).2.1 (clickCells pointer g).2.2
                "World" = Some t ∧
      index t = 2 ∧ collision t = true.
Proof.
  intros Hl Hw Hh Hx Hy. eexists _, _. split; [apply updateMarker_spec|].
  set (g := set_marker _ g0).
  assert (Hcell : markerCell g = (clickCells pointer g).2).
  { unfold markerCell, clickCells, g. simpl.
    unfold tileToWorldX, tileToWorldY, worldToTileX, worldToTileY.
    rewrite Hw, Hh, !Z.div_mul by lia. done. }
  split; [exact Hcell|].
  destruct (handleClick_changeTile search pointer g) as (g1 & Hr & ->).
  destruct (requestPath_frame search pointer g) as (g2 & Hr2 & Hm & Hf & Hk & _).
  rewrite Hr in Hr2. injection Hr2 as <-.
  assert (Hc1 : markerCell g1 = (clickCells pointer g).2).
  { rewrite <- Hcell. unfold markerCell. by rewrite Hm, Hk. }
  assert (Hin : IsInLayerBounds (map g1) (markerCell g1).1 (markerCell g1).2
                = true).
  { rewrite Hc1, Hm. apply IsInLayerBounds_spec. done. }
  assert (Hl1 : layers (map g1) !! "World" = Some l) by (by rewrite Hm).
  rewrite (changeTile_inside g1 l Hl1 Hin). eexists _, _.
  split; [reflexivity|]. cbn [map finder]. rewrite Hc1.
  split; [|split; [by apply getTileAt_placed; rewrite <- Hc1|done]].
  cbn [avoidAdditionalPoint pointsToAvoid]. rewrite <- surjective_pairing.
  apply elem_of_union. left. by apply elem_of_singleton.
Qed.

Lemma handleClick_blocks_its_goal_witness :
  (0 ≤ (0 + 70) / 32 < 3) ∧
  ∃ visible g g',
    updateMarker (70, 10) (Sample.game (0, 0)) = Returned visible g ∧
    handleClick findPath (70, 10) g = Returned tt g' ∧
    (2, 0) ∈ pointsToAvoid (finder g').
Proof.
  split; [change (0 ≤ 2 < 3); lia|].
  destruct (handleClick_blocks_its_goal findPath (70, 10) (Sample.game (0, 0))
              Sample.world eq_refl eq_refl eq_refl)
    as (visible & g & Hu & Hc & g' & t & Hh & Hp & _);
    [change (0 ≤ 2 < 3); lia | change (0 ≤ 0 < 2); lia|].
  exists visible, g, g'. split; [exact Hu|]. split; [exact Hh|].
  rewrite updateMarker_spec in Hu. injection Hu as _ <-. exact Hp.
Defined.
